(** * Type-erased interfaces (impl/interface.hpp)

    A shallow embedding of the [interface_detail] helpers and of the class
    that the [INTERFACE_n] macros generate, followed by the properties of
    dispatch, downcasting, equality, move, conversion and assignment.

    Memory is a finite map from addresses to blocks.  A [const thunk*] is
    modelled by the type whose [thunk_storage<T>::t] it points to (the
    address "acts as RTTI"), a vtable entry by the template instantiation it
    points to.  Every function that can throw or run into undefined behaviour
    returns a [result]. *)

From stdpp Require Import gmap strings list fin_maps.
From Stdlib Require Import ZArith Lia.

Set Default Proof Using "Type".
Open Scope N_scope.

(** ** Outcomes and state passing *)

(** [Ret a s]: normal return; [Throw s]: an exception leaves the function
    with the state [s]; [Undefined]: the behaviour is undefined or the
    program is ill-formed. *)
Inductive result (S A : Type) : Type :=
  | Ret (a : A) (s : S)
  | Throw (s : S)
  | Undefined.
Arguments Ret {S A} a s.
Arguments Throw {S A} s.
Arguments Undefined {S A}.

Definition bind {S A B} (m : S -> result S A) (k : A -> S -> result S B)
  : S -> result S B :=
  fun s => match m s with
           | Ret a s' => k a s'
           | Throw s' => Throw s'
           | Undefined => Undefined
           end.

Notation "'let*' x ':=' m 'in' k" := (bind m (fun x => k))
  (at level 10, x pattern, m at level 100, k at level 200).

(** What a caller can see of a call: the value returned, or that it threw. *)
Inductive outcome (A : Type) : Type :=
  | Returns (a : A)
  | Throws
  | NoBehaviour.
Arguments Returns {A} a.
Arguments Throws {A}.
Arguments NoBehaviour {A}.

Definition observe {S A} (r : result S A) : outcome A :=
  match r with
  | Ret a _ => Returns a
  | Throw _ => Throws
  | Undefined => NoBehaviour
  end.

(** ** Types and classes of the wrapped values *)

Abbreviation addr := N.
Definition nullptr : addr := 0.
Abbreviation class_id := nat.

(** The object types a value can have: a class, [void*], or a pointer to an
    object type. *)
Inductive ctype : Type :=
  | TClass (c : class_id)
  | TVoidPtr
  | TPtr (T : ctype).

Global Instance ctype_eq_dec : EqDecision ctype.
Proof. solve_decision. Defined.

(** std::is_pointer_v<T> *)
Definition is_pointer_v (T : ctype) : bool :=
  match T with
  | TClass _ => false
  | TVoidPtr | TPtr _ => true
  end.

(** What the header needs to know of a user class: its size and alignment,
    whether it is constructible from [const T&] and from [T&&], what these
    constructors do on the member values (the copy constructor may throw:
    [None]; the move constructor yields the new object and what it leaves
    in the source), and its member functions by name. *)
Record class_decl : Type := {
  cls_size : N;
  cls_align : N;
  cls_copy_constructible : bool;
  cls_move_constructible : bool;
  cls_copy : list Z -> option (list Z);
  cls_move : list Z -> option (list Z * list Z);
  cls_methods : string -> option (list Z -> list Z -> Z * list Z);
}.

(** LP64: sizeof(void* ) and __STDCPP_DEFAULT_NEW_ALIGNMENT__ *)
Definition sizeof_ptr : N := 8.
Definition default_new_alignment : N := 16.

(** ** Memory *)

Inductive object : Type :=
  | OClass (c : class_id) (s : list Z)
  | OPtr (a : addr)
  | ORaw.

Record block : Type := { blk_size : N; blk_obj : object }.

(** The allocated blocks and the bytes the allocator can still hand out. *)
Record heap : Type := { blocks : gmap N block; avail : N }.

(** new std::byte[n]: a fresh non-null address, or std::bad_alloc *)
Definition new_bytes (n : N) (hp : heap) : result heap addr :=
  if n <=? avail hp then
    let a := fresh ({[nullptr]} ∪ dom (blocks hp)) in
    Ret a {| blocks := <[a := {| blk_size := n; blk_obj := ORaw |}]> (blocks hp);
             avail := avail hp - n |}
  else Throw hp.

(** delete[] p: nothing for a null pointer *)
Definition delete_bytes (p : addr) (hp : heap) : result heap unit :=
  if p =? nullptr then Ret tt hp
  else match blocks hp !! p with
       | Some b => Ret tt {| blocks := delete p (blocks hp);
                             avail := avail hp + blk_size b |}
       | None => Undefined
       end.

(** *static_cast<T*>(p) for a class T *)
Definition load_class (c : class_id) (p : addr) (hp : heap) : option (list Z) :=
  match blocks hp !! p with
  | Some {| blk_obj := OClass c' s |} => if decide (c' = c) then Some s else None
  | _ => None
  end.

(** *static_cast<void**>(p) *)
Definition load_ptr (p : addr) (hp : heap) : option addr :=
  match blocks hp !! p with
  | Some {| blk_obj := OPtr a |} => Some a
  | _ => None
  end.

(** Writing an object into the storage at [p] (placement new, member
    update, end of lifetime with [ORaw]). *)
Definition store_obj (p : addr) (o : object) (hp : heap) : result heap unit :=
  match blocks hp !! p with
  | Some b => Ret tt {| blocks := <[p := {| blk_size := blk_size b; blk_obj := o |}]> (blocks hp);
                        avail := avail hp |}
  | None => Undefined
  end.

(** The destructor of a [unique_ptr<std::byte[]>] that still owns [buf],
    run while an exception propagates. *)
Definition unwinding {A} (buf : addr) (m : heap -> result heap A) : heap -> result heap A :=
  fun hp => match m hp with
            | Throw hp' => match delete_bytes buf hp' with
                           | Ret _ hp'' => Throw hp''
                           | _ => Undefined
                           end
            | r => r
            end.

(** ** interface_detail *)

Section Interface.

(** The classes of the program. *)
Variable classes : class_id -> class_decl.

Definition sizeof (T : ctype) : N :=
  match T with
  | TClass c => cls_size (classes c)
  | TVoidPtr | TPtr _ => sizeof_ptr
  end.

Definition alignof (T : ctype) : N :=
  match T with
  | TClass c => cls_align (classes c)
  | TVoidPtr | TPtr _ => sizeof_ptr
  end.

(** std::is_constructible_v<T, const T&> *)
Definition is_copy_constructible (T : ctype) : bool :=
  match T with
  | TClass c => cls_copy_constructible (classes c)
  | TVoidPtr | TPtr _ => true
  end.

(** std::is_constructible_v<T, T&&> *)
Definition is_move_constructible (T : ctype) : bool :=
  match T with
  | TClass c => cls_move_constructible (classes c)
  | TVoidPtr | TPtr _ => true
  end.

(** new (dst) T{*static_cast<const T*>(src)} *)
Definition copy_construct (T : ctype) (dst src : addr) (hp : heap) : result heap unit :=
  match T with
  | TClass c =>
      match load_class c src hp with
      | Some s => match cls_copy (classes c) s with
                  | Some s' => store_obj dst (OClass c s') hp
                  | None => Throw hp
                  end
      | None => Undefined
      end
  | TVoidPtr | TPtr _ =>
      match load_ptr src hp with
      | Some a => store_obj dst (OPtr a) hp
      | None => Undefined
      end
  end.

(** new (dst) T{std::move(x)}, x being *static_cast<T*>(src) *)
Definition move_construct (T : ctype) (dst src : addr) (hp : heap) : result heap unit :=
  match T with
  | TClass c =>
      match load_class c src hp with
      | Some s => match cls_move (classes c) s with
                  | Some (s', rest) =>
                      (let* _ := store_obj src (OClass c rest) in
                       store_obj dst (OClass c s')) hp
                  | None => Throw hp
                  end
      | None => Undefined
      end
  | TVoidPtr | TPtr _ =>
      match load_ptr src hp with
      | Some a => store_obj dst (OPtr a) hp
      | None => Undefined
      end
  end.

(** static_cast<T*>(p)->~T() *)
Definition destroy_at (T : ctype) (p : addr) (hp : heap) : result heap unit :=
  match T with
  | TClass c =>
      match load_class c p hp with
      | Some _ => store_obj p ORaw hp
      | None => Undefined
      end
  | TVoidPtr | TPtr _ =>
      match load_ptr p hp with
      | Some _ => store_obj p ORaw hp
      | None => Undefined
      end
  end.

(** struct thunk: a null function pointer is [None]. *)
Record thunk : Type := {
  thunk_copy : option (addr -> addr -> heap -> result heap unit);
  thunk_move : option (addr -> addr -> heap -> result heap unit);
  thunk_destroy : option (addr -> heap -> result heap unit);
  thunk_size : N;
}.

(** thunk_storage<T>::t; the bool parameter of the template is its default,
    std::is_constructible_v<T, const T&>. *)
Definition thunk_storage (T : ctype) : thunk :=
  if is_copy_constructible T then
    {| thunk_copy := Some (copy_construct T);
       thunk_move := Some (move_construct T);
       thunk_destroy := Some (destroy_at T);
       thunk_size := sizeof T |}
  else
    {| thunk_copy := None;
       thunk_move := None;
       thunk_destroy := Some (destroy_at T);
       thunk_size := sizeof T |}.

(** const thunk*: null, or the address of thunk_storage<T>::t *)
Inductive thunk_ptr : Type :=
  | thunk_null
  | thunk_at (T : ctype).

Global Instance thunk_ptr_eq_dec : EqDecision thunk_ptr.
Proof. solve_decision. Defined.

Definition thunk_deref (t : thunk_ptr) : option thunk :=
  match t with
  | thunk_null => None
  | thunk_at T => Some (thunk_storage T)
  end.

Definition get_thunk (T : ctype) : thunk_ptr :=
  if is_pointer_v T then thunk_at TVoidPtr else thunk_at T.

Definition is_pointer_thunk (t : thunk_ptr) : bool :=
  bool_decide (t = get_thunk TVoidPtr).

(** as_object<T>(p): the address of the object the member is called on. *)
Definition as_object (T : ctype) (p : addr) (hp : heap) : option addr :=
  if is_pointer_v T then load_ptr p hp else Some p.

(** The class of the expression as_object<T>(p), when it has one. *)
Definition object_class (T : ctype) : option class_id :=
  match T with
  | TClass c => Some c
  | TPtr (TClass c) => Some c
  | _ => None
  end.

(** obj.METHOD_NAME(as...) on the object of class [c] at [a] *)
Definition invoke (c : class_id) (name : string) (a : addr) (args : list Z)
    (hp : heap) : result heap Z :=
  match cls_methods (classes c) name, load_class c a hp with
  | Some f, Some s =>
      (let* _ := store_obj a (OClass c (f s args).2) in Ret (f s args).1) hp
  | _, _ => Undefined
  end.

(** METHOD_NAME_k_factory<T>::call, which erasure_fn<SIGNATURE, ...>::value
    forwards to. *)
Definition factory_call (name : string) (T : ctype) (p : addr) (args : list Z)
    (hp : heap) : result heap Z :=
  match object_class T, as_object T p hp with
  | Some c, Some a => invoke c name a args hp
  | _, _ => Undefined
  end.

(** A vtable entry: null, or the address of
    erasure_fn<SIGNATURE, METHOD_NAME_k_factory<T>>::value. *)
Inductive erased_fn : Type :=
  | fn_null
  | erasure_fn (name : string) (T : ctype).

Global Instance erased_fn_eq_dec : EqDecision erased_fn.
Proof. solve_decision. Defined.

Definition call_fn (f : erased_fn) (p : addr) (args : list Z) (hp : heap) : result heap Z :=
  match f with
  | fn_null => Undefined
  | erasure_fn name T => factory_call name T p args hp
  end.

(** ** The interface class *)

(** An object of the class that INTERFACE_n(SIGNATURE0, METHOD_NAME0, ...)
    declares.  [iface] is its static type, the method names in the order of
    the macro arguments; the other three are the data members. *)
Record interface : Type := {
  iface : list string;
  _ptr : addr;
  _t : thunk_ptr;
  _vtable : list erased_fn;
}.

Global Instance interface_eq_dec : EqDecision interface.
Proof. solve_decision. Defined.

(** The k of get<k>: the position of METHOD_NAMEk among the macro arguments. *)
Fixpoint position (name : string) (I : list string) : option nat :=
  match I with
  | [] => None
  | n :: I' => if decide (n = name) then Some O else S <$> position name I'
  end.

(** get_METHOD_NAME(i, interface_tag{}), found by the name in the class of
    [i]: get<k>(i._vtable).  [None] when that class declares no such friend. *)
Definition get_ (name : string) (i : interface) : option erased_fn :=
  match position name (iface i) with
  | Some k => _vtable i !! k
  | None => None
  end.

Definition fetch_ptr (i : interface) : addr := _ptr i.
Definition fetch_thunk (i : interface) : thunk_ptr := _t i.

(** The default member initializers: nullptr, nullptr, {} *)
Definition default_interface (I : list string) : interface :=
  {| iface := I; _ptr := nullptr; _t := thunk_null;
     _vtable := replicate (length I) fn_null |}.

(** explicit operator bool() const noexcept { return _ptr; } *)
Definition operator_bool (i : interface) : bool := negb (_ptr i =? nullptr).

(** construct(I&& i) running on the default-initialized [*this] of type [I];
    [by_copy] is is_lvalue_reference_v<I> || is_const_v<I>.  The result is
    [*this] when the function returns. *)
Definition construct (I : list string) (by_copy : bool) (i : interface)
    (hp : heap) : result heap interface :=
  match mapM (fun name => get_ name i) I with
  | None => Undefined
  | Some vt =>
      if negb (operator_bool i) then Ret (default_interface I) hp
      else
        let p := fetch_ptr i in
        let t := fetch_thunk i in
        match thunk_deref t with
        | None => Undefined
        | Some th =>
            (let* buf := new_bytes (thunk_size th) in
             let* _ := unwinding buf
                         match (if by_copy then thunk_copy th else thunk_move th) with
                         | Some f => f buf p
                         | None => fun _ => Undefined
                         end in
             Ret {| iface := I; _ptr := buf; _t := t; _vtable := vt |}) hp
        end
  end.

(** Every method of the contract is a member of the class the call goes to. *)
Definition provides (U : ctype) (I : list string) : bool :=
  match object_class U with
  | Some c => forallb (fun name => bool_decide (is_Some (cls_methods (classes c) name))) I
  | None => false
  end.

(** new (buf) U{std::forward<T>(t)} for the argument object [v] *)
Definition emplace (U : ctype) (rvalue : bool) (buf : addr) (v : object)
    (hp : heap) : result heap unit :=
  match U, v with
  | TClass c, OClass c' s =>
      if decide (c' = c) then
        match (if rvalue then fst <$> cls_move (classes c) s else cls_copy (classes c) s) with
        | Some s' => store_obj buf (OClass c s') hp
        | None => Throw hp
        end
      else Undefined
  | (TVoidPtr | TPtr _), OPtr a => store_obj buf (OPtr a) hp
  | _, _ => Undefined
  end.

(** The constructor from a value [t] of type T&&, with U = decay_t<T>. *)
Definition interface_from (I : list string) (U : ctype) (rvalue : bool) (v : object)
    (hp : heap) : result heap interface :=
  if negb (alignof U <=? default_new_alignment) then Undefined
  else if negb (is_copy_constructible U) then Undefined
  else if negb (provides U I) then Undefined
  else
    (let* buf := new_bytes (sizeof U) in
     let* _ := unwinding buf (emplace U rvalue buf v) in
     Ret {| iface := I; _ptr := buf; _t := get_thunk U;
            _vtable := map (fun name => erasure_fn name U) I |}) hp.

(** The destructor. *)
Definition destructor (i : interface) : heap -> result heap unit :=
  let* _ := (if operator_bool i then
               match thunk_deref (_t i) with
               | Some {| thunk_destroy := Some d |} => d (_ptr i)
               | _ => fun _ => Undefined
               end
             else Ret tt) in
  delete_bytes (_ptr i).

(** decltype(auto) METHOD_NAME(Args&&... as) *)
Definition method (name : string) (i : interface) (args : list Z)
    (hp : heap) : result heap Z :=
  match get_ name i with
  | Some f => call_fn f (_ptr i) args hp
  | None => Undefined
  end.

(** target<T>(i) *)
Definition target (T : ctype) (i : interface) : addr :=
  if decide (_t i = get_thunk T) then _ptr i else nullptr.

(** operator==; [None] when a stored pointer cannot be read. *)
Definition operator_eq (this rhs : interface) (hp : heap) : option bool :=
  if _ptr this =? nullptr then Some (_ptr rhs =? nullptr)
  else if is_pointer_thunk (_t this) && is_pointer_thunk (_t rhs) then
    match load_ptr (_ptr this) hp, load_ptr (_ptr rhs) hp with
    | Some a, Some b => Some (a =? b)
    | _, _ => None
    end
  else Some false.

(** operator!= *)
Definition operator_ne (this rhs : interface) (hp : heap) : option bool :=
  negb <$> operator_eq this rhs hp.

(** ** Interface objects as variables of a program *)

(** The interface objects that are alive, each under the name of its
    variable, and the memory.  Statements take their operands by name, so
    that the two operands of a swap or an assignment may be one object. *)
Record world : Type := { mem : heap; vars : gmap nat interface }.

Definition in_mem {A} (m : heap -> result heap A) : world -> result world A :=
  fun w => match m (mem w) with
           | Ret a hp => Ret a {| mem := hp; vars := vars w |}
           | Throw hp => Throw {| mem := hp; vars := vars w |}
           | Undefined => Undefined
           end.

Definition get_var (x : nat) : world -> result world interface :=
  fun w => match vars w !! x with
           | Some i => Ret i w
           | None => Undefined
           end.

Definition set_var (x : nat) (i : interface) : world -> result world unit :=
  fun w => Ret tt {| mem := mem w; vars := <[x := i]> (vars w) |}.

(** A new variable; its name must be free. *)
Definition declare (x : nat) (i : interface) : world -> result world unit :=
  fun w => match vars w !! x with
           | None => set_var x i w
           | Some _ => Undefined
           end.

Definition same_type (i j : interface) : world -> result world unit :=
  fun w => if decide (iface i = iface j) then Ret tt w else Undefined.

Definition set_ptr (p : addr) (i : interface) : interface :=
  {| iface := iface i; _ptr := p; _t := _t i; _vtable := _vtable i |}.
Definition set_t (t : thunk_ptr) (i : interface) : interface :=
  {| iface := iface i; _ptr := _ptr i; _t := t; _vtable := _vtable i |}.
Definition set_vtable (vt : list erased_fn) (i : interface) : interface :=
  {| iface := iface i; _ptr := _ptr i; _t := _t i; _vtable := vt |}.

(** std::swap(x.m, y.m) on one data member:
    tmp = move(x.m); x.m = move(y.m); y.m = move(tmp) *)
Definition std_swap {A} (get : interface -> A) (set : A -> interface -> interface)
    (x y : nat) : world -> result world unit :=
  let* ix := get_var x in
  let* iy := get_var y in
  let tmp := get ix in
  let* _ := set_var x (set (get iy) ix) in
  let* iy' := get_var y in
  set_var y (set tmp iy').

(** friend void swap(interface& x, interface& y) noexcept *)
Definition swap (x y : nat) : world -> result world unit :=
  let* ix := get_var x in
  let* iy := get_var y in
  let* _ := same_type ix iy in
  let* _ := std_swap _ptr set_ptr x y in
  let* _ := std_swap _t set_t x y in
  std_swap _vtable set_vtable x y.

(** interface x; *)
Definition default_ctor (x : nat) (I : list string) : world -> result world unit :=
  declare x (default_interface I).

(** interface x = v;  or  interface x = std::move(v); *)
Definition value_ctor (x : nat) (I : list string) (U : ctype) (rvalue : bool)
    (v : object) : world -> result world unit :=
  let* i := in_mem (interface_from I U rvalue v) in
  declare x i.

(** interface(const interface& other) { construct(other); } *)
Definition copy_ctor (x other : nat) : world -> result world unit :=
  let* io := get_var other in
  let* i := in_mem (construct (iface io) true io) in
  declare x i.

(** interface(interface&& other) noexcept { swap( *this, other); } *)
Definition move_ctor (x other : nat) : world -> result world unit :=
  let* io := get_var other in
  let* _ := declare x (default_interface (iface io)) in
  swap x other.

(** The converting constructor interface(I&& i) from an object of another
    interface class. *)
Definition converting_ctor (x : nat) (I : list string) (by_copy : bool)
    (other : nat) : world -> result world unit :=
  let* io := get_var other in
  let* i := in_mem (construct I by_copy io) in
  declare x i.

(** The end of the lifetime of the variable [x]. *)
Definition end_of_scope (x : nat) : world -> result world unit :=
  let* i := get_var x in
  let* _ := in_mem (destructor i) in
  fun w => Ret tt {| mem := mem w; vars := delete x (vars w) |}.

(** A name for a local variable. *)
Definition local (w : world) : nat := fresh (dom (vars w)).

(** interface& operator=(const interface& other) *)
Definition copy_assign (this other : nat) : world -> result world unit :=
  fun w =>
    let tmp := local w in
    (let* it := get_var this in
     let* io := get_var other in
     let* _ := same_type it io in
     let* _ := copy_ctor tmp other in
     let* _ := swap this tmp in
     end_of_scope tmp) w.

(** interface& operator=(interface&& other) noexcept *)
Definition move_assign (this other : nat) : world -> result world unit :=
  fun w =>
    let tmp := local w in
    (let* it := get_var this in
     let* io := get_var other in
     let* _ := same_type it io in
     let* _ := move_ctor tmp other in
     let* _ := swap this tmp in
     end_of_scope tmp) w.

(** x.METHOD_NAME(as...) *)
Definition call (x : nat) (name : string) (args : list Z) : world -> result world Z :=
  let* i := get_var x in
  in_mem (method name i args).

(** The statements of a program that uses interface objects. *)
Inductive stmt : Type :=
  | Default (x : nat) (I : list string)
  | Wrap (x : nat) (I : list string) (U : ctype) (rvalue : bool) (v : object)
  | Copy (x other : nat)
  | Move (x other : nat)
  | Convert (x : nat) (I : list string) (by_copy : bool) (other : nat)
  | CopyAssign (this other : nat)
  | MoveAssign (this other : nat)
  | Swap (x y : nat)
  | Call (x : nat) (name : string) (args : list Z)
  | EndOfScope (x : nat).

(** An INTERFACE_n with a method name given twice does not compile: it
    would define the friend get_METHOD_NAME twice. *)
Definition declared (I : list string) : world -> result world unit :=
  fun w => if decide (NoDup I) then Ret tt w else Undefined.

Definition exec (s : stmt) : world -> result world unit :=
  match s with
  | Default x J => let* _ := declared J in default_ctor x J
  | Wrap x J U rvalue v => let* _ := declared J in value_ctor x J U rvalue v
  | Copy x other => copy_ctor x other
  | Move x other => move_ctor x other
  | Convert x J by_copy other => let* _ := declared J in converting_ctor x J by_copy other
  | CopyAssign this other => copy_assign this other
  | MoveAssign this other => move_assign this other
  | Swap x y => swap x y
  | Call x name args => let* _ := call x name args in Ret tt
  | EndOfScope x => end_of_scope x
  end.

(** The worlds a program can be in: it starts with no interface object and
    any memory, and goes on after a statement that returned or threw. *)
Inductive reachable : world -> Prop :=
  | reachable_start (hp : heap) : reachable {| mem := hp; vars := ∅ |}
  | reachable_return (s : stmt) (w w' : world) :
      reachable w -> exec s w = Ret tt w' -> reachable w'
  | reachable_throw (s : stmt) (w w' : world) :
      reachable w -> exec s w = Throw w' -> reachable w'.

End Interface.


(** ** A small program to evaluate the definitions on *)

Module Demo.

Open Scope string_scope.

(** A class with the implicit copy and move constructors. *)
Definition plain (ms : string -> option (list Z -> list Z -> Z * list Z)) : class_decl :=
  {| cls_size := 4; cls_align := 4;
     cls_copy_constructible := true; cls_move_constructible := true;
     cls_copy := fun s => Some s;
     cls_move := fun s => Some (s, s);
     cls_methods := ms |}.

(** struct Square { int side; int area() { return side * side; } }; *)
Definition Square : class_decl :=
  plain (fun name =>
    if decide (name = "area") then
      Some (fun s _ => (match s with [a] => a * a | _ => 0 end, s)%Z)
    else None).

(** struct Counter { int n; int area() { return n++; } int twice() { return 2 * n; } }; *)
Definition Counter : class_decl :=
  plain (fun name =>
    if decide (name = "area") then
      Some (fun s _ => (match s with [a] => (a, [a + 1]) | _ => (0, s) end)%Z)
    else if decide (name = "twice") then
      Some (fun s _ => (match s with [a] => 2 * a | _ => 0 end, s)%Z)
    else None).

(** A class with a deleted copy constructor and a move constructor that
    leaves the source empty, such as std::unique_ptr. *)
Definition MoveOnly : class_decl :=
  {| cls_size := 8; cls_align := 8;
     cls_copy_constructible := false; cls_move_constructible := true;
     cls_copy := fun _ => None;
     cls_move := fun s => Some (s, []);
     cls_methods := fun _ => None |}.

(** A class whose copy constructor throws when the member is negative. *)
Definition Fragile : class_decl :=
  {| cls_size := 4; cls_align := 4;
     cls_copy_constructible := true; cls_move_constructible := true;
     cls_copy := fun s => match s with
                          | [a] => if (a <? 0)%Z then None else Some s
                          | _ => Some s
                          end;
     cls_move := fun s => Some (s, s);
     cls_methods := fun name =>
       if decide (name = "area") then
         Some (fun s _ => (match s with [a] => a | _ => 0%Z end, [(-1)%Z]))
       else None |}.

(** A class that counts how often it has been copied:
    struct Tracked { int copies;
                     Tracked(const Tracked& o) : copies(o.copies + 1) {}
                     Tracked(Tracked&&) = default;
                     int area() { return copies; } int twice() { return 2 * copies; } }; *)
Definition Tracked : class_decl :=
  {| cls_size := 4; cls_align := 4;
     cls_copy_constructible := true; cls_move_constructible := true;
     cls_copy := fun s => Some (map Z.succ s);
     cls_move := fun s => Some (s, s);
     cls_methods := fun name =>
       if decide (name = "area") then
         Some (fun s _ => (match s with [a] => a | _ => 0 end, s)%Z)
       else if decide (name = "twice") then
         Some (fun s _ => (match s with [a] => 2 * a | _ => 0 end, s)%Z)
       else None |}.

Definition classes (c : class_id) : class_decl :=
  match c with
  | O => Square
  | 1%nat => Counter
  | 2%nat => MoveOnly
  | 3%nat => Fragile
  | _ => Tracked
  end.

Definition square : class_id := 0%nat.
Definition counter : class_id := 1%nat.
Definition move_only : class_id := 2%nat.
Definition fragile : class_id := 3%nat.

(** INTERFACE(int(), area) and INTERFACE(int(), area, int(), twice) *)
Definition Shape : list string := ["area"].
Definition Shape2 : list string := ["area"; "twice"].

(** A memory with a Counter{7} at address 100 and a Square{3} at 200, and
    room for 64 more bytes. *)
Definition hp0 : heap :=
  {| blocks := <[200 := {| blk_size := 4; blk_obj := OClass square [3%Z] |}]>
                 {[100 := {| blk_size := 4; blk_obj := OClass counter [7%Z] |}]};
     avail := 64 |}.

Definition w0 : world := {| mem := hp0; vars := ∅ |}.

(** Shape a = Square{4}; in [hp0]: the object and the memory afterwards. *)
Definition a_square : interface :=
  {| iface := Shape; _ptr := 201; _t := thunk_at (TClass square);
     _vtable := [erasure_fn "area" (TClass square)] |}.
Definition hp_square : heap :=
  {| blocks := <[201 := {| blk_size := 4; blk_obj := OClass square [4%Z] |}]> (blocks hp0);
     avail := 60 |}.

(** The program after "Shape a = Square{4};" with [a] as variable 1. *)
Definition w1 : world := {| mem := hp_square; vars := {[1%nat := a_square]} |}.

(** Then "Shape b = Square{9};" with [b] as variable 2. *)
Definition b_square : interface :=
  {| iface := Shape; _ptr := 202; _t := thunk_at (TClass square);
     _vtable := [erasure_fn "area" (TClass square)] |}.
Definition w2 : world :=
  {| mem := {| blocks := <[202 := {| blk_size := 4; blk_obj := OClass square [9%Z] |}]>
                           (blocks hp_square);
               avail := 56 |};
     vars := <[2%nat := b_square]> {[1%nat := a_square]} |}.

(** Shape2 k = Counter{5}; in [hp0], and the program after it with [k] as
    variable 1. *)
Definition a_counter : interface :=
  {| iface := Shape2; _ptr := 201; _t := thunk_at (TClass counter);
     _vtable := [erasure_fn "area" (TClass counter); erasure_fn "twice" (TClass counter)] |}.
Definition hp_counter : heap :=
  {| blocks := <[201 := {| blk_size := 4; blk_obj := OClass counter [5%Z] |}]> (blocks hp0);
     avail := 60 |}.
Definition w3 : world := {| mem := hp_counter; vars := {[1%nat := a_counter]} |}.

(** Shape r = &c; for the Counter at 100 in [hp0]. *)
Definition a_ref : interface :=
  {| iface := Shape; _ptr := 201; _t := thunk_at TVoidPtr;
     _vtable := [erasure_fn "area" (TPtr (TClass counter))] |}.
Definition hp_ref : heap :=
  {| blocks := <[201 := {| blk_size := 8; blk_obj := OPtr 100 |}]> (blocks hp0);
     avail := 56 |}.

(** Shape b = &c; after "Shape a = &c;", as in [three_refs] below. *)
Definition b_ref : interface :=
  {| iface := Shape; _ptr := 202; _t := thunk_at TVoidPtr;
     _vtable := [erasure_fn "area" (TPtr (TClass counter))] |}.

(** The statements one after the other, while they return. *)
Fixpoint run (ss : list stmt) (w : world) : result world unit :=
  match ss with
  | [] => Ret tt w
  | s :: ss' => match exec classes s w with
                | Ret _ w' => run ss' w'
                | r => r
                end
  end.

Definition world_after (ss : list stmt) (w : world) : world :=
  match run ss w with
  | Ret _ w' => w'
  | _ => w
  end.

(** Shape s = Square{4}; Shape k = Counter{5}; *)
Definition two_shapes : world :=
  world_after [Wrap 1%nat Shape (TClass square) false (OClass square [4%Z]);
               Wrap 2%nat Shape (TClass counter) false (OClass counter [5%Z])] w0.

(** Shape a = &c; Shape b = &c; Shape d = &q; for the Counter c at 100 and
    the Square q at 200. *)
Definition three_refs : world :=
  world_after [Wrap 1%nat Shape (TPtr (TClass counter)) false (OPtr 100);
               Wrap 2%nat Shape (TPtr (TClass counter)) false (OPtr 100);
               Wrap 3%nat Shape (TPtr (TClass square)) false (OPtr 200)] w0.

(** Shape f = Fragile{5}; f.area(); Shape e;  The call leaves the member of
    the Fragile at -1, and its copy constructor then throws. *)
Definition fragile_world : world :=
  world_after [Wrap 1%nat Shape (TClass fragile) false (OClass fragile [5%Z]);
               Call 1%nat "area" [];
               Default 2%nat Shape] w0.



End Demo.

(** ** Properties *)

Section Properties.

Variable classes : class_id -> class_decl.

(** The states of an interface object that the claims speak of. *)
Definition empty (i : interface) : Prop := _ptr i = nullptr.
Definition reference_mode (i : interface) : Prop := is_pointer_thunk (_t i) = true.
Definition value_mode (i : interface) : Prop :=
  _ptr i ≠ nullptr ∧ is_pointer_thunk (_t i) = false.

(** The data pointer is null iff the thunk pointer is. *)
Definition invariant (i : interface) : Prop :=
  _ptr i = nullptr ↔ _t i = thunk_null.

(** The object [o] can be read as a [T]. *)
Definition holds (T : ctype) (o : object) : Prop :=
  match T, o with
  | TClass c, OClass c' _ => c' = c
  | (TVoidPtr | TPtr _), OPtr _ => True
  | _, _ => False
  end.

(** The storage behind a non-empty interface object is allocated and holds
    an object of the type its thunk belongs to. *)
Definition payload_ok (hp : heap) (i : interface) : Prop :=
  match _t i with
  | thunk_null => True
  | thunk_at T => ∃ b, blocks hp !! _ptr i = Some b ∧ holds T (blk_obj b)
  end.


(** A sound interface object: it is empty, or its thunk belongs to a type
    that is constructible from a const reference and the storage behind the
    data pointer holds an object of that type. *)
Definition sound (hp : heap) (i : interface) : Prop :=
  match _t i with
  | thunk_null => _ptr i = nullptr
  | thunk_at T =>
      _ptr i ≠ nullptr ∧ is_copy_constructible classes T = true ∧
      ∃ b, blocks hp !! _ptr i = Some b ∧ holds T (blk_obj b)
  end.

(** A non-empty interface object as the constructor from a value of type
    [U] makes it, up to the interface class: thunk and trampolines of [U],
    and an object of type [U] in the buffer. *)
Definition bound_to (U : ctype) (hp : heap) (i : interface) : Prop :=
  _ptr i ≠ nullptr ∧
  _t i = get_thunk U ∧
  is_copy_constructible classes U = true ∧
  _vtable i = map (λ name, erasure_fn name U) (iface i) ∧
  ∃ b, blocks hp !! _ptr i = Some b ∧ holds U (blk_obj b).

(** Pointer-wrapped: [i] is as the constructor from a pointer makes it
    (thunk and trampolines of a pointer type, a pointer in the buffer), and
    the pointer it stores is [a]. *)
Definition pointer_wrapped (hp : heap) (i : interface) (a : addr) : Prop :=
  ∃ U, is_pointer_v U = true ∧ bound_to U hp i ∧ load_ptr (_ptr i) hp = Some a.

(** Value-wrapped: [i] is as the constructor from an object of a class
    makes it (thunk and trampolines of the class, an object of the class in
    the buffer). *)
Definition value_wrapped (hp : heap) (i : interface) : Prop :=
  ∃ c, bound_to (TClass c) hp i.


(** The object [r] in the memory [hp'] holds a copy of what [i] held in
    [hp]: it is empty if [i] was; otherwise it has the thunk and the vtable
    entries of [i] and a buffer of its own with the copy-constructed
    payload (the same pointer, in reference mode). *)
Definition copy_of (hp : heap) (i : interface) (hp' : heap) (r : interface) : Prop :=
  iface r = iface i ∧
  match _t i with
  | thunk_null => r = default_interface (iface i)
  | thunk_at T =>
      _ptr r ≠ nullptr ∧ _t r = _t i ∧ _vtable r = _vtable i ∧
      match T with
      | TClass c =>
          ∃ s s', load_class c (_ptr i) hp = Some s ∧
                  cls_copy (classes c) s = Some s' ∧
                  load_class c (_ptr r) hp' = Some s'
      | TVoidPtr | TPtr _ =>
          ∃ a, load_ptr (_ptr i) hp = Some a ∧ load_ptr (_ptr r) hp' = Some a
      end
  end.

(** The object a copy leaves in the new buffer. *)
Definition copied (T : ctype) (p : addr) (hp : heap) (o : object) : Prop :=
  match T with
  | TClass c => ∃ s s', load_class c p hp = Some s ∧
                        cls_copy (classes c) s = Some s' ∧ o = OClass c s'
  | TVoidPtr | TPtr _ => ∃ a, load_ptr p hp = Some a ∧ o = OPtr a
  end.

(** Why a copy threw: no memory for the buffer, or the copy constructor of
    the payload threw. *)
Definition copy_failed (T : ctype) (p : addr) (hp : heap) : Prop :=
  avail hp < sizeof classes T ∨
  ∃ c s, T = TClass c ∧ load_class c p hp = Some s ∧ cls_copy (classes c) s = None.

(** The memory once the storage behind [i] is given back. *)
Definition released (i : interface) (hp : heap) : heap :=
  if _ptr i =? nullptr then hp
  else match blocks hp !! _ptr i with
       | Some b => {| blocks := delete (_ptr i) (blocks hp);
                      avail := avail hp + blk_size b |}
       | None => hp
       end.

(** Every block of [hp] is still there in [hp'] and can be read as before. *)
Definition extends (hp hp' : heap) : Prop :=
  ∀ p b, blocks hp !! p = Some b →
    ∃ b', blocks hp' !! p = Some b' ∧ ∀ T, holds T (blk_obj b) → holds T (blk_obj b').

(** The vtable has one entry per method of the class. *)
Definition well_typed (i : interface) : Prop :=
  length (_vtable i) = length (iface i).

(** The vtable entries of a non-empty object are the trampolines of one
    type, the one its thunk belongs to. *)
Definition dispatches (i : interface) : Prop :=
  _t i = thunk_null ∨
  ∃ U, _t i = get_thunk U ∧ _vtable i = map (λ name, erasure_fn name U) (iface i).

Definition object_invariant (i : interface) : Prop :=
  invariant i ∧ well_typed i ∧ dispatches i.

(** Every interface object alive satisfies the invariant. *)
Definition world_invariant (w : world) : Prop :=
  ∀ x i, vars w !! x = Some i → object_invariant i.

(** Every interface object alive is sound, of a well-formed class, and owns
    its buffer alone. *)
Definition world_sound (w : world) : Prop :=
  (∀ x i, vars w !! x = Some i →
     sound (mem w) i ∧ well_typed i ∧ NoDup (iface i)) ∧
  (∀ x y ix iy, x ≠ y → vars w !! x = Some ix → vars w !! y = Some iy →
     _ptr ix ≠ nullptr → _ptr ix ≠ _ptr iy).

(** Every interface object alive has the property [φ]. *)
Definition all_objects (φ : interface → Prop) (w : world) : Prop :=
  ∀ x i, vars w !! x = Some i → φ i.

(** [m], started where [P] holds, returns with [Q] or throws with [E]. *)
Definition triple {A} (P : world → Prop) (m : world → result world A)
    (Q : A → world → Prop) (E : world → Prop) : Prop :=
  ∀ w, P w → match m w with
             | Ret a w' => Q a w'
             | Throw w' => E w'
             | Undefined => True
             end.

End Properties.

(** A statement that keeps the invariant, or the soundness, of the world
    whether it returns or throws. *)
Abbreviation preserves m :=
  (triple world_invariant m (λ _, world_invariant) world_invariant).
Abbreviation keeps classes m :=
  (triple (world_sound classes) m (λ _, world_sound classes) (world_sound classes)).
Abbreviation passes φ m :=
  (triple (all_objects φ) m (λ _, all_objects φ) (all_objects φ)).

(** ** Memory primitives *)

Section MemoryFacts.

Lemma new_bytes_Ret n hp a hp' :
  new_bytes n hp = Ret a hp' →
  a ≠ nullptr ∧ blocks hp !! a = None ∧ n ≤ avail hp ∧
  hp' = {| blocks := <[a := {| blk_size := n; blk_obj := ORaw |}]> (blocks hp);
           avail := avail hp - n |}.
Proof.
  unfold new_bytes. destruct (N.leb_spec n (avail hp)) as [Hle|Hlt]; [|done].
  intros [= <- <-].
  pose proof (is_fresh ({[nullptr]} ∪ dom (blocks hp))) as Hfresh.
  split_and!; [set_solver| |done..].
  apply not_elem_of_dom. set_solver.
Qed.

Lemma new_bytes_Throw n hp hp' :
  new_bytes n hp = Throw hp' → hp' = hp ∧ avail hp < n.
Proof.
  unfold new_bytes. destruct (N.leb_spec n (avail hp)); [done|].
  by intros [= <-].
Qed.

Lemma new_bytes_defined n hp : new_bytes n hp ≠ Undefined.
Proof. unfold new_bytes. by destruct (n <=? avail hp). Qed.

Lemma store_obj_Ret p o hp u hp' :
  store_obj p o hp = Ret u hp' →
  ∃ b, blocks hp !! p = Some b ∧
       hp' = {| blocks := <[p := {| blk_size := blk_size b; blk_obj := o |}]> (blocks hp);
                avail := avail hp |}.
Proof.
  unfold store_obj. destruct (blocks hp !! p) as [b|]; [|done].
  intros [= <-]. eauto.
Qed.

Lemma store_obj_no_throw p o hp hp' : store_obj p o hp ≠ Throw hp'.
Proof. unfold store_obj. by destruct (blocks hp !! p). Qed.

Lemma load_class_Some c p hp s :
  load_class c p hp = Some s ↔
  ∃ n, blocks hp !! p = Some {| blk_size := n; blk_obj := OClass c s |}.
Proof.
  unfold load_class. split.
  - destruct (blocks hp !! p) as [[n [c' s'| |]]|]; try done.
    destruct (decide (c' = c)) as [->|]; [|done]. intros [= ->]. eauto.
  - intros [n ->]. by rewrite decide_True.
Qed.

Lemma load_ptr_Some p hp a :
  load_ptr p hp = Some a ↔
  ∃ n, blocks hp !! p = Some {| blk_size := n; blk_obj := OPtr a |}.
Proof.
  unfold load_ptr. split.
  - destruct (blocks hp !! p) as [[n [| |]]|]; try done. intros [= ->]. eauto.
  - by intros [n ->].
Qed.

(** Freeing a buffer right after its allocation gives back the heap. *)
Lemma delete_new_bytes n hp a hp1 o :
  new_bytes n hp = Ret a hp1 →
  delete_bytes a {| blocks := <[a := {| blk_size := n; blk_obj := o |}]> (blocks hp1);
                    avail := avail hp1 |} = Ret tt hp.
Proof.
  intros (Ha & Hfree & Hle & ->)%new_bytes_Ret. unfold delete_bytes; simpl.
  destruct (N.eqb_spec a nullptr); [done|].
  rewrite lookup_insert_eq. simpl. f_equal. destruct hp as [bl av]; simpl in *.
  f_equal; [|lia].
  rewrite !delete_insert_eq. by apply delete_id.
Qed.

End MemoryFacts.

(** ** Lifecycle descriptors, downcasting and equality *)

Section Thunks.

Variable classes : class_id -> class_decl.

Lemma get_thunk_not_null T : get_thunk T ≠ thunk_null.
Proof. unfold get_thunk. by destruct (is_pointer_v T). Qed.

Lemma get_thunk_pointer T : is_pointer_v T = true → get_thunk T = thunk_at TVoidPtr.
Proof. unfold get_thunk. by intros ->. Qed.



Lemma is_pointer_thunk_get_thunk T : is_pointer_thunk (get_thunk T) = is_pointer_v T.
Proof.
  unfold is_pointer_thunk, get_thunk. destruct T; simpl; by rewrite ?bool_decide_eq_true.
Qed.

Lemma is_pointer_thunk_true t : is_pointer_thunk t = true ↔ t = thunk_at TVoidPtr.
Proof. unfold is_pointer_thunk. by rewrite bool_decide_eq_true. Qed.

(** C9, as the code has it: in thunk_storage<T>::t the copy operation and
    the move operation are both null exactly when T is not constructible from
    const T&, and both present otherwise; whether T is constructible from
    T&& plays no part. *)
Theorem thunk_storage_absent_iff_not_copy_constructible (T : ctype) :
  (thunk_copy (thunk_storage classes T) = None ↔ is_copy_constructible classes T = false) ∧
  (thunk_move (thunk_storage classes T) = None ↔ is_copy_constructible classes T = false) ∧
  thunk_copy (thunk_storage classes T) =
    (if is_copy_constructible classes T then Some (copy_construct classes T) else None) ∧
  thunk_move (thunk_storage classes T) =
    (if is_copy_constructible classes T then Some (move_construct classes T) else None).
Proof.
  unfold thunk_storage.
  destruct (is_copy_constructible classes T); simpl; split_and!; try split; intros; done.
Qed.

End Thunks.

(** C9, as the claim states it, fails for a move-only class: its thunk has
    no move operation although the class is move constructible. *)
Lemma move_only_thunk_has_no_move :
  ¬ (∀ T : ctype,
       (thunk_copy (thunk_storage Demo.classes T) = None ↔
          is_copy_constructible Demo.classes T = false) ∧
       (thunk_move (thunk_storage Demo.classes T) = None ↔
          is_move_constructible Demo.classes T = false)).
Proof.
  intros H. destruct (H (TClass Demo.move_only)) as [_ [Hmove _]].
  specialize (Hmove eq_refl). discriminate Hmove.
Qed.


Section ValueConstructor.

Variable classes : class_id -> class_decl.

Lemma unwinding_Ret {A} buf (m : heap → result heap A) hp a hp' :
  unwinding buf m hp = Ret a hp' ↔ m hp = Ret a hp'.
Proof.
  unfold unwinding. destruct (m hp) as [a' s|s|]; try done.
  by destruct (delete_bytes buf s).
Qed.

(** What holds when the constructor from a value returns. *)
Lemma interface_from_Ret I U rvalue v hp i hp' :
  interface_from classes I U rvalue v hp = Ret i hp' →
  alignof classes U ≤ default_new_alignment ∧
  is_copy_constructible classes U = true ∧
  provides classes U I = true ∧
  ∃ buf hp1,
    new_bytes (sizeof classes U) hp = Ret buf hp1 ∧
    emplace classes U rvalue buf v hp1 = Ret tt hp' ∧
    i = {| iface := I; _ptr := buf; _t := get_thunk U;
           _vtable := map (λ name, erasure_fn name U) I |}.
Proof.
  unfold interface_from.
  destruct (N.leb_spec (alignof classes U) default_new_alignment); [|done].
  destruct (is_copy_constructible classes U); [|done].
  destruct (provides classes U I); [|done]. simpl.
  unfold bind at 1.
  destruct (new_bytes (sizeof classes U) hp) as [buf hp1| |] eqn:Hnew; [|done..].
  unfold bind.
  destruct (unwinding buf (emplace classes U rvalue buf v) hp1) as [[] hp2| |] eqn:Hem; [|done..].
  intros [= <- <-]. apply unwinding_Ret in Hem.
  split_and!; [done..|]. eauto 10.
Qed.

(** What the placement new of the constructor leaves in the buffer. *)
Lemma emplace_Ret U rvalue buf v hp hp' :
  emplace classes U rvalue buf v hp = Ret tt hp' →
  ∃ o, store_obj buf o hp = Ret tt hp' ∧
    match U with
    | TClass c =>
        ∃ s0 s, v = OClass c s0 ∧ o = OClass c s ∧
          (if rvalue then fst <$> cls_move (classes c) s0
           else cls_copy (classes c) s0) = Some s
    | TVoidPtr | TPtr _ => ∃ a, v = OPtr a ∧ o = OPtr a
    end.
Proof.
  unfold emplace. destruct U as [c| |T], v as [c' s0|a|]; try done.
  - destruct (decide (c' = c)) as [->|]; [|done].
    destruct (if rvalue then _ else _) as [s|] eqn:Hs; [|done].
    intros Hst. exists (OClass c s). split; [done|]. eauto.
  - intros Hst. eauto.
  - intros Hst. eauto.
Qed.

Lemma position_lookup (I : list string) k name :
  NoDup I → I !! k = Some name → position name I = Some k.
Proof.
  intros Hnd. revert k. induction Hnd as [|n I Hn Hnd IH]; intros [|k] Hk; simplify_eq/=.
  - by rewrite decide_True.
  - rewrite decide_False.
    + by rewrite (IH k Hk).
    + intros ->. apply Hn. by eapply list_elem_of_lookup_2.
Qed.

Lemma position_Some (I : list string) k name :
  position name I = Some k → I !! k = Some name.
Proof.
  revert k. induction I as [|n I IH]; intros k; simpl; [done|].
  destruct (decide (n = name)) as [->|].
  - by intros [= <-].
  - destruct (position name I) as [k'|]; [|done]. intros [= <-]. simpl. by apply IH.
Qed.

End ValueConstructor.

Section Dispatch.

Variable classes : class_id -> class_decl.

Lemma store_obj_lookup p o hp hp' :
  store_obj p o hp = Ret tt hp' →
  ∃ n, blocks hp' !! p = Some {| blk_size := n; blk_obj := o |}.
Proof.
  intros (b & Hb & ->)%store_obj_Ret. simpl. rewrite lookup_insert_eq. eauto.
Qed.

Lemma store_obj_is_Some p o hp :
  is_Some (blocks hp !! p) → ∃ hp', store_obj p o hp = Ret tt hp'.
Proof. intros [b Hb]. unfold store_obj. rewrite Hb. eauto. Qed.

(** A member call on an object that is there returns what the member
    function returns and writes the members back. *)
Lemma invoke_Ret c name a args hp f s :
  cls_methods (classes c) name = Some f →
  load_class c a hp = Some s →
  ∃ hp', store_obj a (OClass c (f s args).2) hp = Ret tt hp' ∧
         invoke classes c name a args hp = Ret (f s args).1 hp'.
Proof.
  intros Hf Hs. unfold invoke. rewrite Hf, Hs.
  destruct (store_obj_is_Some a (OClass c (f s args).2) hp) as [hp' Hst].
  { apply load_class_Some in Hs as [n ->]. eauto. }
  exists hp'. split; [done|]. unfold bind. by rewrite Hst.
Qed.

Lemma provides_method U I name :
  provides classes U I = true → name ∈ I →
  ∃ c f, object_class U = Some c ∧ cls_methods (classes c) name = Some f.
Proof.
  unfold provides. destruct (object_class U) as [c|]; [|done].
  intros Hall Hin. exists c.
  rewrite forallb_forall in Hall. apply list_elem_of_In in Hin.
  specialize (Hall _ Hin). apply bool_decide_eq_true in Hall as [f Hf]. eauto.
Qed.

Lemma object_class_pointer U c :
  object_class U = Some c → is_pointer_v U = true → U = TPtr (TClass c).
Proof. destruct U as [| |[]]; simpl; congruence. Qed.

Lemma object_class_value U c :
  object_class U = Some c → is_pointer_v U = false → U = TClass c.
Proof. destruct U as [| |[]]; simpl; congruence. Qed.

(** C1: on an interface object constructed from a value [v] of type [U],
    the member named by the k-th macro argument is entry k of the vtable,
    the trampoline bound to [U]; calling it calls that member function of
    the class of [v] with the arguments and returns its result.  For a class
    [U] the call goes to the copy of [v] in the buffer, for a pointer [U] to
    the object the wrapped pointer points to, one dereference further. *)
Theorem method_dispatch I U rvalue v hp i hp1 k name args :
  NoDup I →
  interface_from classes I U rvalue v hp = Ret i hp1 →
  I !! k = Some name →
  get_ name i = _vtable i !! k ∧
  _vtable i !! k = Some (erasure_fn name U) ∧
  method classes name i args hp1 = factory_call classes name U (_ptr i) args hp1 ∧
  ∃ c f, object_class U = Some c ∧ cls_methods (classes c) name = Some f ∧
    if is_pointer_v U then
      ∃ a, v = OPtr a ∧ load_ptr (_ptr i) hp1 = Some a ∧
        ∀ s, load_class c a hp1 = Some s →
          ∃ hp2, store_obj a (OClass c (f s args).2) hp1 = Ret tt hp2 ∧
                 method classes name i args hp1 = Ret (f s args).1 hp2
    else
      ∃ s0 s, v = OClass c s0 ∧
        (if rvalue then fst <$> cls_move (classes c) s0
         else cls_copy (classes c) s0) = Some s ∧
        load_class c (_ptr i) hp1 = Some s ∧
        ∃ hp2, store_obj (_ptr i) (OClass c (f s args).2) hp1 = Ret tt hp2 ∧
               method classes name i args hp1 = Ret (f s args).1 hp2.
Proof.
  intros Hnd Hctor Hk.
  apply interface_from_Ret in Hctor
    as (_ & _ & Hprov & buf & hp0 & Hnew & Hem & ->).
  assert (Hget : get_ name {| iface := I; _ptr := buf; _t := get_thunk U;
                              _vtable := map (λ n, erasure_fn n U) I |}
                 = Some (erasure_fn name U)).
  { unfold get_; simpl. rewrite (position_lookup I k name Hnd Hk).
    rewrite list_lookup_fmap, Hk. done. }
  assert (Hvt : map (λ n, erasure_fn n U) I !! k = Some (erasure_fn name U)).
  { by rewrite list_lookup_fmap, Hk. }
  simpl. rewrite Hget, Hvt. split_and!; [done..| |].
  { unfold method. by rewrite Hget. }
  destruct (provides_method U I name Hprov) as (c & f & Hc & Hf).
  { by eapply list_elem_of_lookup_2. }
  exists c, f. split_and!; [done..|].
  unfold method. rewrite Hget. simpl. unfold factory_call, as_object. rewrite Hc.
  apply emplace_Ret in Hem as (o & Hst & Ho).
  apply store_obj_lookup in Hst as [n Hbuf].
  destruct (is_pointer_v U) eqn:Hptr.
  - rewrite (object_class_pointer U c Hc Hptr) in Ho.
    destruct Ho as (a & -> & ->). exists a.
    assert (Hload : load_ptr buf hp1 = Some a) by (apply load_ptr_Some; eauto).
    rewrite Hload. split_and!; [done..|].
    intros s Hs. by apply invoke_Ret.
  - rewrite (object_class_value U c Hc Hptr) in Ho.
    destruct Ho as (s0 & s & -> & -> & Hs). exists s0, s.
    assert (Hload : load_class c buf hp1 = Some s) by (apply load_class_Some; eauto).
    split_and!; [done..|]. by apply invoke_Ret.
Qed.


(** C4: on an interface object constructed from a pointer, of whatever
    pointee type, target<T> returns the non-null data pointer for every
    pointer type T: the thunk of every pointer type is the one of void*. *)
Theorem target_of_any_pointer_type I U rvalue v hp i hp' T :
  is_pointer_v U = true →
  interface_from classes I U rvalue v hp = Ret i hp' →
  is_pointer_v T = true →
  reference_mode i ∧
  get_thunk T = _t i ∧
  target T i = _ptr i ∧
  target T i ≠ nullptr.
Proof.
  intros HU Hctor HT.
  apply interface_from_Ret in Hctor as (_ & _ & _ & buf & hp0 & Hnew & _ & ->).
  apply new_bytes_Ret in Hnew as (Hbuf & _).
  unfold reference_mode, target; simpl.
  rewrite (get_thunk_pointer T HT), (get_thunk_pointer U HU).
  rewrite decide_True by done. by rewrite is_pointer_thunk_true.
Qed.

End Dispatch.

(** *** The theorems at the objects of the demo program *)

Lemma demo_square_constructed :
  interface_from Demo.classes Demo.Shape (TClass Demo.square) false
    (OClass Demo.square [4%Z]) Demo.hp0 = Ret Demo.a_square Demo.hp_square.
Proof. vm_compute. reflexivity. Defined.

Lemma demo_ref_constructed :
  interface_from Demo.classes Demo.Shape (TPtr (TClass Demo.counter)) false
    (OPtr 100) Demo.hp0 = Ret Demo.a_ref Demo.hp_ref.
Proof. vm_compute. reflexivity. Defined.

Lemma demo_shape_nodup : NoDup Demo.Shape.
Proof. refine (bool_decide_unpack _ _). vm_compute. exact I. Defined.


Lemma method_dispatch_witness :
  method Demo.classes "area" Demo.a_square [] Demo.hp_square =
  factory_call Demo.classes "area" (TClass Demo.square) 201 [] Demo.hp_square.
Proof.
  exact (proj1 (proj2 (proj2
    (method_dispatch Demo.classes Demo.Shape (TClass Demo.square) false
       (OClass Demo.square [4%Z]) Demo.hp0 Demo.a_square Demo.hp_square
       0%nat "area" [] demo_shape_nodup demo_square_constructed eq_refl)))).
Defined.



Lemma target_of_any_pointer_type_witness :
  target (TPtr (TClass Demo.square)) Demo.a_ref ≠ nullptr.
Proof.
  exact (proj2 (proj2 (proj2
    (target_of_any_pointer_type Demo.classes Demo.Shape (TPtr (TClass Demo.counter))
       false (OPtr 100) Demo.hp0 Demo.a_ref Demo.hp_ref (TPtr (TClass Demo.square))
       eq_refl demo_ref_constructed eq_refl)))).
Defined.

Section Equality.

Lemma payload_ok_load_ptr hp i :
  payload_ok hp i → reference_mode i → is_Some (load_ptr (_ptr i) hp).
Proof.
  unfold payload_ok, reference_mode. intros Hok Href.
  apply is_pointer_thunk_true in Href. rewrite Href in Hok.
  destruct Hok as ([n o] & Hb & Ho). destruct o; simpl in Ho; try done.
  unfold load_ptr. rewrite Hb. eauto.
Qed.

(** operator== on two objects whose stored pointers can be read: true iff
    both are empty, or both are in reference mode and store equal pointers. *)
Lemma operator_eq_cases hp i j :
  invariant i → payload_ok hp i → payload_ok hp j →
  ∃ b, operator_eq i j hp = Some b ∧
       operator_ne i j hp = Some (negb b) ∧
       (b = true ↔
          (empty i ∧ empty j) ∨
          (reference_mode i ∧ reference_mode j ∧
           load_ptr (_ptr i) hp = load_ptr (_ptr j) hp)) ∧
       (value_mode i ∨ value_mode j → b = false).
Proof.
  intros Hinv Hi Hj. unfold operator_ne, operator_eq, empty, value_mode, reference_mode.
  destruct (N.eqb_spec (_ptr i) nullptr) as [Hpi|Hpi].
  - exists (_ptr j =? nullptr). split_and!; [done..| |].
    + rewrite N.eqb_eq. split; [auto|]. intros [[_ ?]|(Href & _)]; [done|].
      apply Hinv in Hpi. rewrite Hpi in Href. done.
    + intros [[? _]|[Hne _]]; [done|]. by apply N.eqb_neq.
  - destruct (is_pointer_thunk (_t i)) eqn:Hri; simpl.
    + destruct (is_pointer_thunk (_t j)) eqn:Hrj; simpl.
      * destruct (payload_ok_load_ptr hp i Hi Hri) as [a Ha].
        destruct (payload_ok_load_ptr hp j Hj Hrj) as [b Hb].
        rewrite Ha, Hb. exists (a =? b). split_and!; [done..| |].
        -- rewrite N.eqb_eq. split.
           ++ intros ->. auto.
           ++ intros [[? _]|(_ & _ & [= ->])]; done.
        -- intros [[_ ?]|[_ ?]]; done.
      * exists false. split_and!; [done..| |done].
        split; [done|]. intros [[? _]|(_ & ? & _)]; done.
    + exists false. split_and!; [done..| |done].
      split; [done|]. intros [[? _]|(? & _)]; done.
Qed.

(** C10: operator== is not reflexive.  An object in value mode is not equal
    to itself and is different from itself; an object is equal to itself
    only if it is empty or in reference mode, and (its stored pointer being
    readable) in these two cases it is. *)
Theorem operator_eq_not_reflexive hp i :
  value_mode i →
  operator_eq i i hp = Some false ∧
  operator_ne i i hp = Some true ∧
  (∀ j, operator_eq j j hp = Some true → empty j ∨ reference_mode j) ∧
  (∀ j, payload_ok hp j → empty j ∨ reference_mode j →
        operator_eq j j hp = Some true).
Proof.
  intros [Hne Hval].
  assert (Heq : operator_eq i i hp = Some false).
  { unfold operator_eq. destruct (N.eqb_spec (_ptr i) nullptr); [done|].
    by rewrite Hval. }
  split_and!; [done| |..].
  - unfold operator_ne. by rewrite Heq.
  - intros j. unfold operator_eq, empty, reference_mode.
    destruct (N.eqb_spec (_ptr j) nullptr); [auto|].
    destruct (is_pointer_thunk (_t j)); [auto|]. done.
  - intros j Hj Hcase. unfold operator_eq, empty in *.
    destruct (N.eqb_spec (_ptr j) nullptr) as [|Hp]; [done|].
    destruct Hcase as [|Href]; [done|].
    rewrite Href. simpl.
    destruct (payload_ok_load_ptr hp j Hj Href) as [a ->].
    by rewrite N.eqb_refl.
Qed.

End Equality.

Lemma demo_ref_payload_ok : payload_ok Demo.hp_ref Demo.a_ref.
Proof. eexists. split; [vm_compute; reflexivity|exact I]. Defined.

Lemma demo_ref_invariant : invariant Demo.a_ref.
Proof. split; intros H; vm_compute in H; discriminate H. Defined.

Lemma demo_square_value_mode : value_mode Demo.a_square.
Proof. split; [intros H; vm_compute in H; discriminate H|reflexivity]. Defined.

Lemma operator_eq_not_reflexive_witness :
  operator_eq Demo.a_square Demo.a_square Demo.hp_square = Some false ∧
  operator_ne Demo.a_square Demo.a_square Demo.hp_square = Some true.
Proof.
  pose proof (operator_eq_not_reflexive Demo.hp_square Demo.a_square
                demo_square_value_mode) as (H1 & H2 & _).
  exact (conj H1 H2).
Defined.

(** ** Swap, move and the invariant *)

Section Worlds.

Variable classes : class_id -> class_decl.

Lemma triple_bind {A B} P (m : world → result world A) (k : A → world → result world B)
    Q R E :
  triple P m Q E → (∀ a, triple (Q a) (k a) R E) → triple P (bind m k) R E.
Proof.
  intros Hm Hk w HP. specialize (Hm w HP). unfold bind.
  destruct (m w) as [a w'| |]; [|done..]. by apply Hk.
Qed.

Lemma triple_weaken {A} (P P' : world → Prop) (m : world → result world A)
    (Q Q' : A → world → Prop) E :
  triple P' m Q' E → (∀ w, P w → P' w) → (∀ a w, Q' a w → Q a w) → triple P m Q E.
Proof.
  intros Hm HP HQ w Hw. specialize (Hm w (HP w Hw)).
  destruct (m w); auto.
Qed.

Lemma triple_pre {A} (P P' : world → Prop) (m : world → result world A) Q E :
  (∀ w, P w → P' w) → triple P' m Q E → triple P m Q E.
Proof. intros HP Hm w Hw. apply Hm. by apply HP. Qed.

Lemma swap_fields i j :
  iface i = iface j →
  set_vtable (_vtable j) (set_t (_t j) (set_ptr (_ptr j) i)) = j.
Proof. destruct i, j; simpl. by intros ->. Qed.

Lemma std_swap_same {A} (get : interface → A) set x w i :
  (∀ j, set (get j) j = j) → vars w !! x = Some i →
  std_swap get set x x w = Ret tt w.
Proof.
  intros Heta Hx. unfold std_swap, bind, get_var, set_var.
  rewrite Hx. simpl. rewrite Hx. simpl.
  rewrite lookup_insert_eq. simpl. rewrite !Heta, insert_insert_eq.
  rewrite insert_id by done. by destruct w.
Qed.

Lemma std_swap_diff {A} (get : interface → A) set x y w ix iy :
  x ≠ y → vars w !! x = Some ix → vars w !! y = Some iy →
  std_swap get set x y w =
    Ret tt {| mem := mem w;
              vars := <[y := set (get ix) iy]> (<[x := set (get iy) ix]> (vars w)) |}.
Proof.
  intros Hne Hx Hy. unfold std_swap, bind, get_var, set_var.
  rewrite Hx. simpl. rewrite Hy. simpl.
  rewrite lookup_insert_ne by done. by rewrite Hy.
Qed.

(** swap exchanges the two objects, and changes nothing when they are one. *)
Lemma swap_Ret x y w ix iy :
  vars w !! x = Some ix → vars w !! y = Some iy → iface ix = iface iy →
  swap x y w = Ret tt {| mem := mem w; vars := <[y := ix]> (<[x := iy]> (vars w)) |}.
Proof.
  intros Hx Hy Hty. unfold swap, bind at 1 2 3, get_var, same_type.
  rewrite Hx, Hy. rewrite decide_True by done.
  destruct (decide (x = y)) as [->|Hne].
  - assert (ix = iy) as -> by congruence.
    unfold bind.
    rewrite (std_swap_same _ptr set_ptr y w iy) by (by intros [] || done).
    rewrite (std_swap_same _t set_t y w iy) by (by intros [] || done).
    rewrite (std_swap_same _vtable set_vtable y w iy) by (by intros [] || done).
    rewrite insert_insert_eq, insert_id by done. by destruct w.
  - unfold bind.
    rewrite (std_swap_diff _ptr set_ptr x y w ix iy) by done.
    erewrite (std_swap_diff _t set_t x y); [|done|simpl..]; cycle 1.
    { rewrite lookup_insert_ne by done. apply lookup_insert_eq. }
    { apply lookup_insert_eq. }
    erewrite (std_swap_diff _vtable set_vtable x y); [|done|simpl..]; cycle 1.
    { rewrite lookup_insert_ne by done. apply lookup_insert_eq. }
    { apply lookup_insert_eq. }
    simpl. do 2 f_equal.
    pose proof (swap_fields ix iy Hty) as E1.
    pose proof (swap_fields iy ix (eq_sym Hty)) as E2.
    unfold set_vtable, set_t, set_ptr in *. simpl in *. rewrite E1, E2.
    apply map_eq. intros k. rewrite !lookup_insert.
    repeat case_decide; subst; try done; congruence.
Qed.

Lemma swap_inv x y w r :
  swap x y w = r → r ≠ Undefined →
  ∃ ix iy, vars w !! x = Some ix ∧ vars w !! y = Some iy ∧ iface ix = iface iy ∧
    r = Ret tt {| mem := mem w; vars := <[y := ix]> (<[x := iy]> (vars w)) |}.
Proof.
  intros Hr Hdef.
  destruct (vars w !! x) as [ix|] eqn:Hx; cycle 1.
  { subst r. exfalso. apply Hdef. unfold swap, bind, get_var. by rewrite Hx. }
  destruct (vars w !! y) as [iy|] eqn:Hy; cycle 1.
  { subst r. exfalso. apply Hdef. unfold swap, bind, get_var. by rewrite Hx, Hy. }
  destruct (decide (iface ix = iface iy)) as [Hty|Hty]; cycle 1.
  { subst r. exfalso. apply Hdef. unfold swap, bind, get_var, same_type.
    rewrite Hx, Hy. by rewrite decide_False. }
  exists ix, iy. split_and!; [done..|]. rewrite <- Hr. by apply swap_Ret.
Qed.

(** The move constructor: the new object takes the state of [other], which
    is left with the default members. *)
Lemma move_ctor_Ret x other w io :
  vars w !! other = Some io → vars w !! x = None →
  move_ctor x other w =
    Ret tt {| mem := mem w;
              vars := <[other := default_interface (iface io)]> (<[x := io]> (vars w)) |}.
Proof.
  intros Ho Hx. unfold move_ctor, bind at 1, get_var. rewrite Ho.
  unfold bind, declare, set_var. rewrite Hx.
  assert (x ≠ other) as Hne by congruence.
  erewrite swap_Ret; simpl.
  - by rewrite insert_insert_eq.
  - apply lookup_insert_eq.
  - by rewrite lookup_insert_ne.
  - done.
Qed.

Lemma call_of_var x name args w i :
  vars w !! x = Some i →
  call classes x name args w = in_mem (method classes name i args) w.
Proof. intros Hx. unfold call, bind, get_var. by rewrite Hx. Qed.

(** C5: after h2 is move-constructed from h, h is empty (false in a boolean
    context, null data and thunk pointers) and h2 has the data pointer, the
    thunk and the vtable h had; memory is untouched, so every member call on
    h2 does what it did on h. *)
Theorem move_ctor_empties_source h2 h w i :
  vars w !! h = Some i → vars w !! h2 = None →
  ∃ w', move_ctor h2 h w = Ret tt w' ∧
    mem w' = mem w ∧
    vars w' !! h2 = Some i ∧
    (∃ e, vars w' !! h = Some e ∧ empty e ∧ operator_bool e = false ∧
          _ptr e = nullptr ∧ _t e = thunk_null) ∧
    (∀ y, y ≠ h → y ≠ h2 → vars w' !! y = vars w !! y) ∧
    (∀ name args,
       call classes h name args w = in_mem (method classes name i args) w ∧
       call classes h2 name args w' = in_mem (method classes name i args) w' ∧
       observe (call classes h2 name args w') = observe (call classes h name args w)).
Proof.
  intros Hh Hh2. eexists. split; [by apply move_ctor_Ret|]. simpl.
  assert (h2 ≠ h) as Hne by congruence.
  split_and!; [done| | | |].
  - rewrite lookup_insert_ne by done. apply lookup_insert_eq.
  - exists (default_interface (iface i)). rewrite lookup_insert_eq. done.
  - intros y ? ?. by rewrite !lookup_insert_ne.
  - intros name args.
    rewrite (call_of_var h name args w i Hh).
    erewrite call_of_var; cycle 1.
    { simpl. rewrite lookup_insert_ne by done. apply lookup_insert_eq. }
    split_and!; [done..|]. unfold in_mem; simpl.
    by destruct (method classes name i args (mem w)).
Qed.

(** What holds when [construct] returns: the source was empty and the
    object keeps its default members, or a buffer of the recorded size was
    allocated, the copy or move operation of the thunk filled it, and the
    vtable consists of the entries of the source found by name. *)
Lemma construct_Ret I by_copy i hp r hp' :
  construct classes I by_copy i hp = Ret r hp' →
  ∃ vt, mapM (λ name, get_ name i) I = Some vt ∧
    ((_ptr i = nullptr ∧ r = default_interface I ∧ hp' = hp) ∨
     (_ptr i ≠ nullptr ∧
      ∃ th f buf hp1,
        thunk_deref classes (_t i) = Some th ∧
        (if by_copy then thunk_copy th else thunk_move th) = Some f ∧
        new_bytes (thunk_size th) hp = Ret buf hp1 ∧
        f buf (_ptr i) hp1 = Ret tt hp' ∧
        r = {| iface := I; _ptr := buf; _t := _t i; _vtable := vt |})).
Proof.
  unfold construct, operator_bool, fetch_ptr, fetch_thunk.
  destruct (mapM _ I) as [vt|]; [|done]. intros H. exists vt. split; [done|].
  destruct (N.eqb_spec (_ptr i) nullptr) as [Hp|Hp]; simpl in H.
  { injection H as <- <-. by left. }
  right. split; [done|].
  destruct (thunk_deref classes (_t i)) as [th|]; [|done].
  unfold bind at 1 in H.
  destruct (new_bytes (thunk_size th) hp) as [buf hp1| |] eqn:Hnew; [|done..].
  unfold bind in H.
  destruct (unwinding buf _ hp1) as [[] hp2| |] eqn:Hop; [|done..].
  injection H as <- <-. apply unwinding_Ret in Hop.
  destruct (if by_copy then thunk_copy th else thunk_move th) as [f|] eqn:Hf; [|done].
  exists th, f, buf, hp1. done.
Qed.

Lemma default_interface_invariant I :
  invariant (default_interface I) ∧ well_typed (default_interface I).
Proof. split; [done|]. unfold well_typed; simpl. apply length_replicate. Qed.

Lemma construct_invariant I by_copy i hp r hp' :
  construct classes I by_copy i hp = Ret r hp' → invariant r ∧ well_typed r.
Proof.
  intros (vt & Hvt & [(_ & -> & _)|(_ & th & f & buf & hp1 & Hth & _ & Hnew & _ & ->)])
    %construct_Ret.
  { apply default_interface_invariant. }
  apply new_bytes_Ret in Hnew as (Hbuf & _).
  split.
  - unfold invariant; simpl. split; [done|]. intros Ht. by rewrite Ht in Hth.
  - unfold well_typed; simpl. symmetry. by eapply length_mapM.
Qed.

Lemma interface_from_invariant I U rvalue v hp r hp' :
  interface_from classes I U rvalue v hp = Ret r hp' → invariant r ∧ well_typed r.
Proof.
  intros (_ & _ & _ & buf & hp1 & Hnew & _ & ->)%interface_from_Ret.
  apply new_bytes_Ret in Hnew as (Hbuf & _). split.
  - unfold invariant; simpl. split; [done|]. intros Ht. by apply get_thunk_not_null in Ht.
  - unfold well_typed; simpl. apply length_map.
Qed.

(** The vtable [construct] builds from an object that dispatches to [U]
    dispatches to [U]. *)
Lemma getters_dispatch I i U vt :
  _vtable i = map (λ name, erasure_fn name U) (iface i) →
  mapM (λ name, get_ name i) I = Some vt →
  vt = map (λ name, erasure_fn name U) I.
Proof.
  intros Hvt Hget. apply mapM_Some_1 in Hget.
  apply list_eq_Forall2. rewrite Forall2_fmap_r.
  eapply Forall2_flip, Forall2_impl; [done|]. simpl.
  intros name f. unfold get_.
  destruct (position name (iface i)) as [k|] eqn:Hk; [|done].
  apply position_Some in Hk. rewrite Hvt, list_lookup_fmap, Hk. simpl. congruence.
Qed.

Lemma default_interface_object I : object_invariant (default_interface I).
Proof. split_and!; [apply default_interface_invariant..|by left]. Qed.

Lemma construct_object I by_copy i hp r hp' :
  dispatches i → construct classes I by_copy i hp = Ret r hp' → object_invariant r.
Proof.
  intros Hd Hc. destruct (construct_invariant _ _ _ _ _ _ Hc) as [Hi Hw].
  split_and!; [done..|].
  apply construct_Ret in Hc
    as (vt & Hvt & [(_ & -> & _)|(_ & th & f & buf & hp1 & Hth & _ & _ & _ & ->)]).
  { by left. }
  destruct Hd as [Hn|(U & Ht & Hv)]; [by rewrite Hn in Hth|].
  right. exists U. split; [done|]. simpl. by eapply getters_dispatch.
Qed.

Lemma interface_from_object I U rvalue v hp r hp' :
  interface_from classes I U rvalue v hp = Ret r hp' → object_invariant r.
Proof.
  intros Hc. destruct (interface_from_invariant _ _ _ _ _ _ _ Hc) as [Hi Hw].
  split_and!; [done..|].
  apply interface_from_Ret in Hc as (_ & _ & _ & buf & hp1 & _ & _ & ->).
  right. by exists U.
Qed.

Lemma triple_get_var x :
  triple world_invariant (get_var x)
    (λ i w, world_invariant w ∧ object_invariant i) world_invariant.
Proof.
  intros w Hw. unfold get_var. destruct (vars w !! x) as [i|] eqn:Hx; [|done].
  split; [done|]. by apply (Hw x).
Qed.

Lemma triple_declared I : preserves (declared I).
Proof. intros w Hw. unfold declared. by case_decide. Qed.

Lemma triple_same_type i j : preserves (same_type i j).
Proof. intros w Hw. unfold same_type. by case_decide. Qed.

Lemma world_invariant_insert x i w w' :
  world_invariant w → object_invariant i →
  vars w' = <[x := i]> (vars w) →
  world_invariant w'.
Proof.
  intros Hw Hi E y j. rewrite E, lookup_insert. case_decide.
  - by intros [= <-].
  - apply Hw.
Qed.

Lemma triple_declare x i :
  object_invariant i → preserves (declare x i).
Proof.
  intros Hi w Hw. unfold declare, set_var. destruct (vars w !! x); [done|].
  by eapply world_invariant_insert.
Qed.

Lemma triple_swap x y : preserves (swap x y).
Proof.
  intros w Hw. destruct (swap x y w) as [[] w'|w'|] eqn:Hsw; [| |done].
  - apply swap_inv in Hsw as (ix & iy & Hx & Hy & _ & [= ->]); [|done].
    pose proof (Hw x ix Hx). pose proof (Hw y iy Hy).
    eapply (world_invariant_insert y ix {| mem := mem w; vars := <[x:=iy]> (vars w) |});
      [|done..].
    by eapply world_invariant_insert.
  - apply swap_inv in Hsw as (ix & iy & _ & _ & _ & [=]). done.
Qed.

Lemma triple_in_mem {A} (m : heap → result heap A) (φ : A → Prop) :
  (∀ hp a hp', m hp = Ret a hp' → φ a) →
  triple world_invariant (in_mem m) (λ a w, world_invariant w ∧ φ a) world_invariant.
Proof.
  intros Hm w Hw. unfold in_mem. destruct (m (mem w)) as [a hp'|hp'|] eqn:E; [|done..].
  split; [done|]. by eapply Hm.
Qed.

Lemma triple_construct_declare x I by_copy io :
  dispatches io →
  preserves (let* i := in_mem (construct classes I by_copy io) in declare x i).
Proof.
  intros Hd. eapply triple_bind.
  - apply (triple_in_mem _ object_invariant).
    intros hp a hp'. by apply construct_object.
  - intros i w [Hw Hi]. by apply triple_declare.
Qed.

Lemma triple_copy_ctor x other : preserves (copy_ctor classes x other).
Proof.
  eapply triple_bind; [apply triple_get_var|].
  intros io w [Hw (_ & _ & Hd)]. by apply triple_construct_declare.
Qed.

Lemma triple_move_ctor x other : preserves (move_ctor x other).
Proof.
  eapply triple_bind; [apply triple_get_var|].
  intros io. apply (triple_pre _ world_invariant); [by intros w [Hw _]|].
  eapply triple_bind.
  - apply triple_declare, default_interface_object.
  - intros ?. apply triple_swap.
Qed.

Lemma triple_end_of_scope x : preserves (end_of_scope classes x).
Proof.
  eapply triple_bind; [apply triple_get_var|].
  intros i. apply (triple_pre _ world_invariant); [by intros w [Hw _]|].
  eapply triple_bind.
  - apply (triple_in_mem _ (λ _, True)). done.
  - intros ? w [Hw _] y j. simpl. rewrite lookup_delete. case_decide; [done|]. apply Hw.
Qed.

(** Reading a variable and comparing types leave the world as it is. *)
Lemma triple_get_var_any (P : world → Prop) x :
  triple P (get_var x) (λ i w, P w ∧ vars w !! x = Some i) P.
Proof.
  intros w Hw. unfold get_var. destruct (vars w !! x) eqn:E; simpl; [|done].
  split; [done|]. by rewrite E.
Qed.

Lemma triple_same_type_any (P : world → Prop) i j :
  triple P (same_type i j) (λ _, P) P.
Proof. intros w Hw. unfold same_type. by case_decide. Qed.

(** An assignment keeps what its three steps keep. *)
Lemma triple_assign (P : world → Prop)
    (ctor : nat → nat → world → result world unit) this other :
  (∀ x y, triple P (ctor x y) (λ _, P) P) →
  (∀ x y, triple P (swap x y) (λ _, P) P) →
  (∀ x, triple P (end_of_scope classes x) (λ _, P) P) →
  triple P (λ w,
    (let* it := get_var this in
     let* io := get_var other in
     let* _ := same_type it io in
     let* _ := ctor (local w) other in
     let* _ := swap this (local w) in
     end_of_scope classes (local w)) w) (λ _, P) P.
Proof.
  intros Hctor Hswap Hend w Hw.
  cut (triple P (let* it := get_var this in
                 let* io := get_var other in
                 let* _ := same_type it io in
                 let* _ := ctor (local w) other in
                 let* _ := swap this (local w) in
                 end_of_scope classes (local w)) (λ _, P) P).
  { intros H. by apply H. }
  generalize (local w). intros tmp.
  eapply triple_bind; [apply triple_get_var_any|]. intros it.
  apply (triple_pre _ P); [by intros ? [? _]|].
  eapply triple_bind; [apply triple_get_var_any|]. intros io.
  apply (triple_pre _ P); [by intros ? [? _]|].
  eapply triple_bind; [apply triple_same_type_any|]. intros ?.
  eapply triple_bind; [apply Hctor|]. intros ?.
  eapply triple_bind; [apply Hswap|]. intros ?.
  apply Hend.
Qed.

(** Every statement keeps the invariant, whether it returns or throws. *)
Lemma exec_preserves s : preserves (exec classes s).
Proof.
  destruct s; simpl.
  - eapply triple_bind; [apply triple_declared|]. intros [].
    apply triple_declare, default_interface_object.
  - eapply triple_bind; [apply triple_declared|]. intros [].
    eapply triple_bind.
    + apply (triple_in_mem _ object_invariant).
      intros hp a hp'. apply interface_from_object.
    + intros i w [Hw Hi]. by apply triple_declare.
  - apply triple_copy_ctor.
  - apply triple_move_ctor.
  - eapply triple_bind; [apply triple_declared|]. intros [].
    eapply triple_bind; [apply triple_get_var|].
    intros io w [Hw (_ & _ & Hd)]. by apply triple_construct_declare.
  - apply (triple_assign _ (copy_ctor classes));
      [apply triple_copy_ctor|apply triple_swap|apply triple_end_of_scope].
  - apply (triple_assign _ move_ctor);
      [apply triple_move_ctor|apply triple_swap|apply triple_end_of_scope].
  - apply triple_swap.
  - eapply triple_bind.
    + eapply triple_bind; [apply triple_get_var|].
      intros i. apply (triple_pre _ world_invariant); [by intros ? [? _]|].
      apply (triple_in_mem _ (λ _, True)). done.
    + intros ? w [Hw _]. done.
  - apply triple_end_of_scope.
Qed.

Lemma reachable_invariant w : reachable classes w → world_invariant w.
Proof.
  induction 1 as [hp|s w w' _ IH Hs|s w w' _ IH Hs].
  - intros x i. simpl. by rewrite lookup_empty.
  - pose proof (exec_preserves s w IH) as H. by rewrite Hs in H.
  - pose proof (exec_preserves s w IH) as H. by rewrite Hs in H.
Qed.

Lemma position_elem name (I : list string) :
  name ∈ I → ∃ k, position name I = Some k ∧ (k < length I)%nat.
Proof.
  induction I as [|n I IH]; [by intros ?%elem_of_nil|].
  intros Hin. simpl. destruct (decide (n = name)) as [->|Hne].
  - exists 0%nat. split; [done|]. lia.
  - apply elem_of_cons in Hin as [?|Hin]; [done|].
    destruct (IH Hin) as (k & -> & Hk). exists (S k). split; [done|]. lia.
Qed.

(** The getters named by the methods of a narrower class all exist. *)
Lemma getters_defined I i :
  well_typed i → (∀ name, name ∈ I → name ∈ iface i) →
  is_Some (mapM (λ name, get_ name i) I).
Proof.
  intros Hty Hsub. apply mapM_is_Some_2, Forall_forall. intros name Hin. simpl.
  destruct (position_elem name (iface i) (Hsub name Hin)) as (k & Hk & Hlt).
  unfold get_. rewrite Hk. apply lookup_lt_is_Some. by rewrite Hty.
Qed.

Lemma copy_ctor_empty x other w io :
  well_typed io → vars w !! other = Some io → empty io → vars w !! x = None →
  copy_ctor classes x other w =
    Ret tt {| mem := mem w; vars := <[x := default_interface (iface io)]> (vars w) |}.
Proof.
  intros Hty Ho He Hx. unfold copy_ctor, bind at 1, get_var. rewrite Ho.
  unfold bind, in_mem, construct.
  destruct (getters_defined (iface io) io Hty) as [vt ->]; [done|].
  unfold operator_bool. rewrite He. simpl. unfold declare, set_var; simpl. by rewrite Hx.
Qed.

(** C7: in every world a program can reach, every interface object has a
    null data pointer iff it has a null thunk pointer, and is then the one
    that tests false; every statement (constructors, copy, move, conversion,
    assignments, swap, calls, destruction) leads to a world where this holds
    again, whether it returns or throws; a default-constructed object is
    empty and tests false; the copy and the move of an empty object are
    empty. *)
Theorem reachable_interface_invariant w :
  reachable classes w →
  (∀ x i, vars w !! x = Some i →
     invariant i ∧ (empty i ↔ operator_bool i = false)) ∧
  (∀ s w', exec classes s w = Ret tt w' ∨ exec classes s w = Throw w' →
     ∀ x i, vars w' !! x = Some i → invariant i) ∧
  (∀ x I, vars w !! x = None →
     default_ctor x I w =
       Ret tt {| mem := mem w; vars := <[x := default_interface I]> (vars w) |} ∧
     empty (default_interface I) ∧ operator_bool (default_interface I) = false) ∧
  (∀ x other io, vars w !! other = Some io → empty io → vars w !! x = None →
     (∃ w' i, copy_ctor classes x other w = Ret tt w' ∧ vars w' !! x = Some i ∧
              empty i ∧ operator_bool i = false) ∧
     (∃ w' i, move_ctor x other w = Ret tt w' ∧ vars w' !! x = Some i ∧
              empty i ∧ operator_bool i = false)).
Proof.
  intros Hr. pose proof (reachable_invariant w Hr) as Hw. split_and!.
  - intros x i Hx. split; [by apply (Hw x)|].
    unfold empty, operator_bool. destruct (N.eqb_spec (_ptr i) nullptr); simpl; split; done.
  - intros s w' Hs x i Hx.
    pose proof (exec_preserves s w Hw) as H.
    destruct Hs as [Hs|Hs]; rewrite Hs in H; by apply (H x).
  - intros x I Hx. unfold default_ctor, declare, set_var. by rewrite Hx.
  - intros x other io Ho He Hx. split.
    + eexists _, _. split; [apply copy_ctor_empty; [by apply (Hw other)|done..]|].
      simpl. by rewrite lookup_insert_eq.
    + eexists _, io. split; [by apply move_ctor_Ret|]. simpl.
      split_and!; [|done|].
      * assert (x ≠ other) by congruence.
        rewrite lookup_insert_ne by done. apply lookup_insert_eq.
      * unfold operator_bool. unfold empty in He. by rewrite He.
Qed.

End Worlds.

Lemma demo_w1_reachable : reachable Demo.classes Demo.w1.
Proof.
  apply (reachable_return Demo.classes
           (Wrap 1%nat Demo.Shape (TClass Demo.square) false (OClass Demo.square [4%Z]))
           Demo.w0 Demo.w1 (reachable_start Demo.classes Demo.hp0)).
  vm_compute. reflexivity.
Defined.

Lemma move_ctor_empties_source_witness :
  ∃ w', move_ctor 2%nat 1%nat Demo.w1 = Ret tt w' ∧
        vars w' !! 2%nat = Some Demo.a_square ∧
        ∃ e, vars w' !! 1%nat = Some e ∧ operator_bool e = false.
Proof.
  destruct (move_ctor_empties_source Demo.classes 2%nat 1%nat Demo.w1 Demo.a_square
              eq_refl eq_refl)
    as (w' & Hm & _ & H2 & (e & He & _ & Hb & _) & _).
  exists w'. split; [exact Hm|]. split; [exact H2|]. exists e. exact (conj He Hb).
Defined.

Lemma reachable_interface_invariant_witness :
  reachable Demo.classes Demo.w1 ∧ invariant Demo.a_square.
Proof.
  split; [exact demo_w1_reachable|].
  exact (proj1 (proj1 (reachable_interface_invariant Demo.classes Demo.w1
                         demo_w1_reachable) 1%nat Demo.a_square eq_refl)).
Defined.

(** ** Conversion and assignment *)

Section Copies.

Variable classes : class_id -> class_decl.

Lemma copy_construct_Ret T dst src hp hp' :
  copy_construct classes T dst src hp = Ret tt hp' →
  match T with
  | TClass c =>
      ∃ s s', load_class c src hp = Some s ∧ cls_copy (classes c) s = Some s' ∧
              store_obj dst (OClass c s') hp = Ret tt hp'
  | TVoidPtr | TPtr _ =>
      ∃ a, load_ptr src hp = Some a ∧ store_obj dst (OPtr a) hp = Ret tt hp'
  end.
Proof.
  unfold copy_construct. destruct T as [c| |T].
  - destruct (load_class c src hp) as [s|]; [|done].
    destruct (cls_copy (classes c) s) as [s'|] eqn:Hs'; [|done].
    intros H. exists s, s'. by split_and!.
  - destruct (load_ptr src hp) as [a|]; [|done]. intros H. exists a. by split_and!.
  - destruct (load_ptr src hp) as [a|]; [|done]. intros H. exists a. by split_and!.
Qed.

Lemma copy_construct_Throw T dst src hp hp' :
  copy_construct classes T dst src hp = Throw hp' →
  hp' = hp ∧
  ∃ c s, T = TClass c ∧ load_class c src hp = Some s ∧ cls_copy (classes c) s = None.
Proof.
  unfold copy_construct. destruct T as [c| |T].
  - destruct (load_class c src hp) as [s|] eqn:Hl; [|done].
    destruct (cls_copy (classes c) s) as [s'|] eqn:Hc.
    + by intros ?%store_obj_no_throw.
    + intros [= <-]. split; [done|]. by exists c, s.
  - destruct (load_ptr src hp) as [a|]; [|done]. by intros ?%store_obj_no_throw.
  - destruct (load_ptr src hp) as [a|]; [|done]. by intros ?%store_obj_no_throw.
Qed.

(** With an object of type [T] at [src] and storage at [dst], the copy
    operation has a defined behaviour. *)
Lemma copy_construct_defined T dst src hp b :
  blocks hp !! src = Some b → holds T (blk_obj b) → is_Some (blocks hp !! dst) →
  copy_construct classes T dst src hp ≠ Undefined.
Proof.
  intros Hb Hh [d Hd]. unfold copy_construct.
  destruct b as [n o]; simpl in Hh.
  destruct T as [c| |T], o as [c' s|a|]; try done; simpl in Hh.
  - subst c'. unfold load_class. rewrite Hb. rewrite decide_True by done.
    destruct (cls_copy (classes c) s); [|done]. unfold store_obj. by rewrite Hd.
  - unfold load_ptr. rewrite Hb. unfold store_obj. by rewrite Hd.
  - unfold load_ptr. rewrite Hb. unfold store_obj. by rewrite Hd.
Qed.

Lemma thunk_deref_sound hp i T :
  sound classes hp i → _t i = thunk_at T →
  thunk_deref classes (_t i) = Some (thunk_storage classes T) ∧
  thunk_copy (thunk_storage classes T) = Some (copy_construct classes T) ∧
  thunk_destroy (thunk_storage classes T) = Some (destroy_at T) ∧
  thunk_size (thunk_storage classes T) = sizeof classes T.
Proof.
  unfold sound. intros Hs Ht. rewrite Ht in *. destruct Hs as (_ & Hc & _).
  split_and!; [done|unfold thunk_storage; by rewrite Hc..].
Qed.

Lemma load_insert_other_class c p q b hp av :
  p ≠ q →
  load_class c p {| blocks := <[q := b]> (blocks hp); avail := av |} = load_class c p hp.
Proof. intros Hne. unfold load_class; simpl. by rewrite lookup_insert_ne. Qed.

Lemma load_insert_other_ptr p q b hp av :
  p ≠ q →
  load_ptr p {| blocks := <[q := b]> (blocks hp); avail := av |} = load_ptr p hp.
Proof. intros Hne. unfold load_ptr; simpl. by rewrite lookup_insert_ne. Qed.

Lemma delete_fresh_buffer n hp buf hp1 :
  new_bytes n hp = Ret buf hp1 → delete_bytes buf hp1 = Ret tt hp.
Proof.
  intros Hnew. pose proof (delete_new_bytes n hp buf hp1 ORaw Hnew) as Hdel.
  apply new_bytes_Ret in Hnew as (_ & _ & _ & ->). simpl in Hdel.
  by rewrite insert_insert_eq in Hdel.
Qed.

(** [construct] from a sound object, as a copy: it returns the default
    members for an empty source; otherwise it returns an object whose buffer
    is a fresh block with the copy-constructed payload, the rest of the
    memory being as before, or it throws and leaves the memory as it was.
    Its behaviour is never undefined. *)
Lemma construct_copy_spec I io hp :
  sound classes hp io → well_typed io → (∀ name, name ∈ I → name ∈ iface io) →
  match construct classes I true io hp with
  | Ret r hp' =>
      ∃ vt, mapM (λ name, get_ name io) I = Some vt ∧
        match _t io with
        | thunk_null => r = default_interface I ∧ hp' = hp
        | thunk_at T =>
            ∃ buf o,
              r = {| iface := I; _ptr := buf; _t := _t io; _vtable := vt |} ∧
              buf ≠ nullptr ∧ blocks hp !! buf = None ∧ sizeof classes T ≤ avail hp ∧
              hp' = {| blocks := <[buf := {| blk_size := sizeof classes T; blk_obj := o |}]>
                                   (blocks hp);
                       avail := avail hp - sizeof classes T |} ∧
              copied classes T (_ptr io) hp o
        end
  | Throw hp' =>
      hp' = hp ∧ ∃ T, _t io = thunk_at T ∧ copy_failed classes T (_ptr io) hp
  | Undefined => False
  end.
Proof.
  intros Hs Hty Hsub.
  destruct (getters_defined I io Hty Hsub) as [vt Hvt].
  unfold construct, operator_bool, fetch_ptr, fetch_thunk. rewrite Hvt.
  destruct (_t io) as [|T] eqn:Ht.
  { unfold sound in Hs. rewrite Ht in Hs. rewrite Hs. simpl. eauto. }
  destruct (thunk_deref_sound hp io T Hs Ht) as (Hth & Hcopy & _ & Hsize).
  rewrite Ht in Hth. unfold sound in Hs. rewrite Ht in Hs.
  destruct Hs as (Hp & _ & b & Hb & Hh).
  destruct (N.eqb_spec (_ptr io) nullptr); [done|]. simpl.
  rewrite Hcopy, Hsize. unfold bind at 1.
  destruct (new_bytes (sizeof classes T) hp) as [buf hp1|hp1|] eqn:Hnew.
  - pose proof (delete_fresh_buffer _ _ _ _ Hnew) as Hdel.
    apply new_bytes_Ret in Hnew as (Hbuf & Hfree & Hle & ->).
    assert (_ptr io ≠ buf) as Hne by congruence.
    unfold bind, unwinding.
    destruct (copy_construct classes T buf (_ptr io) _) as [[] hp2|hp2|] eqn:Hcc.
    + exists vt. split; [done|]. apply copy_construct_Ret in Hcc.
      assert (∃ o, copied classes T (_ptr io) hp o ∧
                store_obj buf o
                  {| blocks := <[buf := {| blk_size := sizeof classes T; blk_obj := ORaw |}]>
                                 (blocks hp);
                     avail := avail hp - sizeof classes T |} = Ret tt hp2)
        as (o & Ho & Hst).
      { destruct T as [c| |T'].
        - destruct Hcc as (s & s' & Hl & Hc & Hst).
          rewrite load_insert_other_class in Hl by done.
          exists (OClass c s'). split; [|done]. by exists s, s'.
        - destruct Hcc as (a & Hl & Hst).
          rewrite load_insert_other_ptr in Hl by done.
          exists (OPtr a). split; [|done]. by exists a.
        - destruct Hcc as (a & Hl & Hst).
          rewrite load_insert_other_ptr in Hl by done.
          exists (OPtr a). split; [|done]. by exists a. }
      apply store_obj_Ret in Hst as (b' & Hb' & ->). simpl in *.
      rewrite lookup_insert_eq in Hb'. injection Hb' as <-. simpl.
      exists buf, o. rewrite insert_insert_eq. done.
    + apply copy_construct_Throw in Hcc as (-> & c & s & -> & Hl & Hc). rewrite Hdel.
      split; [done|]. exists (TClass c). split; [done|]. right. exists c, s.
      rewrite load_insert_other_class in Hl by done. done.
    + eapply copy_construct_defined in Hcc; [done| |done|].
      * simpl. by rewrite lookup_insert_ne.
      * simpl. rewrite lookup_insert_eq. eauto.
  - apply new_bytes_Throw in Hnew as [-> Hlt]. split; [done|].
    exists T. split; [done|]. by left.
  - by apply new_bytes_defined in Hnew.
Qed.






End Copies.

Section Assignment.

Variable classes : class_id -> class_decl.

Lemma default_interface_sound hp I : sound classes hp (default_interface I).
Proof. done. Qed.

(** The destructor of a sound object gives its storage back. *)
Lemma destructor_sound hp i :
  sound classes hp i → destructor classes i hp = Ret tt (released i hp).
Proof.
  intros Hs. unfold destructor, released, operator_bool, bind.
  destruct (_t i) as [|T] eqn:Ht.
  { unfold sound in Hs. rewrite Ht in Hs. rewrite Hs. simpl.
    unfold delete_bytes. by rewrite N.eqb_refl. }
  destruct (thunk_deref_sound classes hp i T Hs Ht) as (Hth & _ & Hd & _).
  rewrite Ht in Hth. unfold sound in Hs. rewrite Ht in Hs.
  destruct Hs as (Hp & _ & b & Hb & Hh).
  destruct (N.eqb_spec (_ptr i) nullptr) as [|_]; [done|]. simpl.
  unfold thunk_storage in *. destruct (is_copy_constructible classes T); simpl.
  all: assert (destroy_at T (_ptr i) hp = store_obj (_ptr i) ORaw hp) as ->
    by (unfold destroy_at, load_class, load_ptr; rewrite Hb;
        destruct T, b as [n []]; simpl in *; try done; subst;
        by rewrite ?decide_True).
  all: unfold store_obj; rewrite Hb; unfold delete_bytes; simpl.
  all: destruct (N.eqb_spec (_ptr i) nullptr) as [|_]; [done|].
  all: rewrite lookup_insert_eq; simpl; by rewrite delete_insert_eq.
Qed.

Lemma end_of_scope_Ret x w i :
  vars w !! x = Some i → sound classes (mem w) i →
  end_of_scope classes x w =
    Ret tt {| mem := released i (mem w); vars := delete x (vars w) |}.
Proof.
  intros Hx Hs. unfold end_of_scope, bind, get_var, in_mem. rewrite Hx.
  by rewrite (destructor_sound (mem w) i Hs).
Qed.

Lemma local_fresh w : vars w !! local w = None.
Proof. unfold local. apply (not_elem_of_dom (vars w)). apply is_fresh. Qed.

(** Copying an object to itself by name gives its own vtable: every entry
    is found again under its name. *)
Lemma getters_self i :
  NoDup (iface i) → well_typed i →
  mapM (λ name, get_ name i) (iface i) = Some (_vtable i).
Proof.
  intros Hnd Hty. apply mapM_Some_2.
  apply Forall2_same_length_lookup_2; [done|].
  intros k name f Hk Hf. unfold get_. by rewrite (position_lookup _ k name Hnd Hk).
Qed.

(** A sound object stays sound when a block is added elsewhere. *)
Lemma sound_insert_fresh hp i buf b av :
  sound classes hp i → blocks hp !! buf = None →
  sound classes {| blocks := <[buf := b]> (blocks hp); avail := av |} i.
Proof.
  unfold sound. destruct (_t i) as [|T]; [done|].
  intros (Hp & Hc & b' & Hb' & Hh) Hfree. split_and!; [done..|].
  exists b'. split; [|done]. simpl. rewrite lookup_insert_ne; [done|congruence].
Qed.

Lemma released_lookup_ne i hp p :
  p ≠ _ptr i → blocks (released i hp) !! p = blocks hp !! p.
Proof.
  intros Hne. unfold released. destruct (_ptr i =? nullptr); [done|].
  destruct (blocks hp !! _ptr i); [|done]. simpl. by rewrite lookup_delete_ne.
Qed.

Lemma copy_ctor_result x other w io :
  vars w !! other = Some io → vars w !! x = None →
  copy_ctor classes x other w =
    match construct classes (iface io) true io (mem w) with
    | Ret r hp1 => Ret tt {| mem := hp1; vars := <[x := r]> (vars w) |}
    | Throw hp1 => Throw {| mem := hp1; vars := vars w |}
    | Undefined => Undefined
    end.
Proof.
  intros Ho Hx. unfold copy_ctor, bind, get_var, in_mem. rewrite Ho.
  destruct (construct classes (iface io) true io (mem w)); [|done..].
  unfold declare, set_var; simpl. by rewrite Hx.
Qed.

Lemma sound_ptr_not_fresh hp i buf :
  sound classes hp i → buf ≠ nullptr → blocks hp !! buf = None → buf ≠ _ptr i.
Proof.
  unfold sound. destruct (_t i) as [|T].
  - intros -> ? _. done.
  - intros (_ & _ & b & Hb & _) _ Hfree. congruence.
Qed.

(** Copy assignment of sound objects: either the copy is made, [this]
    becomes the copy, the storage [this] had is given back and nothing else
    changes, or the copy throws and the whole world is as before. *)
Lemma copy_assign_spec this other w it io :
  vars w !! this = Some it → vars w !! other = Some io → iface it = iface io →
  NoDup (iface io) → well_typed io →
  sound classes (mem w) it → sound classes (mem w) io →
  match copy_assign classes this other w with
  | Ret _ w' =>
      ∃ r hp1,
        construct classes (iface io) true io (mem w) = Ret r hp1 ∧
        w' = {| mem := released it hp1; vars := <[this := r]> (vars w) |} ∧
        (∀ p, p ≠ _ptr it → p ≠ _ptr r → blocks (mem w') !! p = blocks (mem w) !! p) ∧
        blocks hp1 !! _ptr io = blocks (mem w) !! _ptr io ∧
        copy_of classes (mem w) io (mem w') r
  | Throw w' =>
      w' = w ∧ ∃ T, _t io = thunk_at T ∧ copy_failed classes T (_ptr io) (mem w)
  | Undefined => False
  end.
Proof.
  intros Hthis Hother Hty Hnd Hwt Hsit Hsio.
  pose proof (local_fresh w) as Htmp.
  unfold copy_assign. set (tmp := local w) in *.
  assert (tmp ≠ this) as Hne1 by congruence.
  unfold bind at 1. unfold get_var at 1. rewrite Hthis.
  unfold bind at 1. unfold get_var at 1. rewrite Hother.
  unfold bind at 1. unfold same_type. rewrite decide_True by done.
  unfold bind at 1. rewrite (copy_ctor_result tmp other w io Hother Htmp).
  pose proof (construct_copy_spec classes (iface io) io (mem w) Hsio Hwt (λ _ H, H)) as Hc.
  destruct (construct classes (iface io) true io (mem w)) as [r hp1|hp1|] eqn:Hcons;
    [|destruct Hc as [-> Hfail]; split; [by destruct w|done]|done].
  destruct Hc as (vt & Hget & Hc).
  rewrite (getters_self io Hnd Hwt) in Hget. injection Hget as <-.
  assert (iface r = iface io ∧ sound classes hp1 it ∧
          (∀ p, p ≠ _ptr r → blocks hp1 !! p = blocks (mem w) !! p))
    as (Hir & Hsit1 & Hframe).
  { destruct (_t io) as [|T].
    - by destruct Hc as [-> ->].
    - destruct Hc as (buf & o & -> & Hbuf & Hfree & _ & -> & _). simpl.
      split_and!; [done|by apply sound_insert_fresh|].
      intros p Hp. by rewrite lookup_insert_ne. }
  unfold bind.
  erewrite (swap_Ret this tmp _ it r); simpl; cycle 1.
  { by rewrite lookup_insert_ne. }
  { apply lookup_insert_eq. }
  { congruence. }
  erewrite (end_of_scope_Ret tmp _ it); simpl; cycle 1.
  { apply lookup_insert_eq. }
  { done. }
  assert (delete tmp (<[tmp:=it]> (<[this:=r]> (<[tmp:=r]> (vars w)))) = <[this:=r]> (vars w))
    as ->.
  { apply map_eq. intros k. rewrite lookup_delete, !lookup_insert.
    repeat case_decide; subst; try done. }
  exists r, hp1. split_and!; [done..| | |].
  - intros p Hp1 Hp2. rewrite released_lookup_ne by done. by apply Hframe.
  - destruct (_t io) as [|T] eqn:HT.
    + by destruct Hc as [_ ->].
    + destruct Hc as (buf & o & -> & Hbuf & Hfree & _). apply Hframe. simpl.
      by apply not_eq_sym, (sound_ptr_not_fresh (mem w)).
  - split; [done|]. destruct (_t io) as [|T] eqn:HT.
    + by destruct Hc as [-> _].
    + destruct Hc as (buf & o & -> & Hbuf & Hfree & _ & -> & Hcp). simpl in *.
      split_and!; [done..|].
      assert (Hlook : blocks (released it
                {| blocks := <[buf := {| blk_size := sizeof classes T; blk_obj := o |}]>
                               (blocks (mem w));
                   avail := avail (mem w) - sizeof classes T |}) !! buf
              = Some {| blk_size := sizeof classes T; blk_obj := o |}).
      { rewrite released_lookup_ne by (by apply (sound_ptr_not_fresh (mem w))).
        simpl. apply lookup_insert_eq. }
      destruct T as [c| |T']; simpl in Hcp.
      * destruct Hcp as (s & s' & Hl & Hcs & ->). exists s, s'.
        split_and!; [done..|]. apply load_class_Some. eauto.
      * destruct Hcp as (a & Hl & ->). exists a. split; [done|].
        apply load_ptr_Some. eauto.
      * destruct Hcp as (a & Hl & ->). exists a. split; [done|].
        apply load_ptr_Some. eauto.
Qed.

Lemma released_lookup_excl i hp p :
  (_ptr i ≠ nullptr → p ≠ _ptr i) → blocks (released i hp) !! p = blocks hp !! p.
Proof.
  intros Hne. unfold released. destruct (N.eqb_spec (_ptr i) nullptr); [done|].
  destruct (blocks hp !! _ptr i); [|done]. simpl. rewrite lookup_delete_ne; [done|].
  apply not_eq_sym. by apply Hne.
Qed.

Lemma released_default I hp : released (default_interface I) hp = hp.
Proof. done. Qed.

(** Move assignment: [this] takes the state of [other], which is left with
    the default members, and the storage [this] had is given back; on
    x = std::move(x) the object keeps its state. *)
Lemma move_assign_spec this other w it io :
  vars w !! this = Some it → vars w !! other = Some io → iface it = iface io →
  sound classes (mem w) it →
  move_assign classes this other w =
    Ret tt {| mem := if decide (this = other) then mem w else released it (mem w);
              vars := <[this := io]>
                        (<[other := default_interface (iface io)]> (vars w)) |}.
Proof.
  intros Hthis Hother Hty Hsit.
  pose proof (local_fresh w) as Htmp.
  unfold move_assign. set (tmp := local w) in *.
  assert (tmp ≠ this) as Hne1 by congruence.
  assert (tmp ≠ other) as Hne2 by congruence.
  unfold bind at 1. unfold get_var at 1. rewrite Hthis.
  unfold bind at 1. unfold get_var at 1. rewrite Hother.
  unfold bind at 1. unfold same_type. rewrite decide_True by done.
  unfold bind at 1. rewrite (move_ctor_Ret tmp other w io Hother Htmp).
  unfold bind.
  destruct (decide (this = other)) as [->|Hne].
  - assert (it = io) as -> by congruence.
    erewrite (swap_Ret other tmp _ (default_interface (iface io)) io); simpl; cycle 1.
    { apply lookup_insert_eq. }
    { rewrite lookup_insert_ne by done. apply lookup_insert_eq. }
    { done. }
    erewrite (end_of_scope_Ret tmp _ (default_interface (iface io))); simpl; cycle 1.
    { apply lookup_insert_eq. }
    { done. }
    do 2 f_equal. apply map_eq. intros k. rewrite lookup_delete, !lookup_insert.
    repeat case_decide; subst; done.
  - erewrite (swap_Ret this tmp _ it io); simpl; cycle 1.
    { rewrite !lookup_insert_ne by done. done. }
    { rewrite lookup_insert_ne by done. apply lookup_insert_eq. }
    { done. }
    erewrite (end_of_scope_Ret tmp _ it); simpl; cycle 1.
    { apply lookup_insert_eq. }
    { done. }
    do 2 f_equal. apply map_eq. intros k. rewrite lookup_delete, !lookup_insert.
    repeat case_decide; subst; done.
Qed.

(** The two assignments on sound objects of one interface class that do
    not share a buffer. *)
Lemma assignment_cases this other w it io :
  vars w !! this = Some it → vars w !! other = Some io → iface it = iface io →
  NoDup (iface io) → well_typed io →
  sound classes (mem w) it → sound classes (mem w) io →
  (this ≠ other → _ptr it ≠ nullptr → _ptr it ≠ _ptr io) →
  match copy_assign classes this other w with
  | Ret _ w' =>
      ∃ r, vars w' = <[this := r]> (vars w) ∧
           copy_of classes (mem w) io (mem w') r ∧
           (this ≠ other →
              vars w' !! other = Some io ∧
              blocks (mem w') !! _ptr io = blocks (mem w) !! _ptr io)
  | Throw w' =>
      w' = w ∧ ∃ T, _t io = thunk_at T ∧ copy_failed classes T (_ptr io) (mem w)
  | Undefined => False
  end ∧
  ∃ w', move_assign classes this other w = Ret tt w' ∧
        vars w' !! this = Some io ∧
        (this ≠ other → vars w' !! other = Some (default_interface (iface io))) ∧
        (∀ y, y ≠ this → y ≠ other → vars w' !! y = vars w !! y) ∧
        blocks (mem w') !! _ptr io = blocks (mem w) !! _ptr io.
Proof.
  intros Hthis Hother Hty Hnd Hwt Hsit Hsio Hexcl. split.
  - pose proof (copy_assign_spec this other w it io Hthis Hother Hty Hnd Hwt Hsit Hsio) as H.
    destruct (copy_assign classes this other w) as [[] w'|w'|]; [|done..].
    destruct H as (r & hp1 & _ & -> & _ & Hsrc & Hcopy). exists r. simpl.
    split_and!; [done..|]. intros Hne. split.
    + by rewrite lookup_insert_ne.
    + rewrite released_lookup_excl; [done|]. intros ?. apply not_eq_sym. by apply Hexcl.
  - eexists. split; [by apply move_assign_spec|]. simpl. split_and!.
    + apply lookup_insert_eq.
    + intros Hne. rewrite lookup_insert_ne by done. apply lookup_insert_eq.
    + intros y ? ?. by rewrite !lookup_insert_ne.
    + destruct (decide (this = other)); [done|].
      rewrite released_lookup_excl; [done|]. intros ?. apply not_eq_sym. by apply Hexcl.
Qed.

End Assignment.

Lemma demo_w2_reachable : reachable Demo.classes Demo.w2.
Proof.
  apply (reachable_return Demo.classes
           (Wrap 2%nat Demo.Shape (TClass Demo.square) false (OClass Demo.square [9%Z]))
           Demo.w1 Demo.w2 demo_w1_reachable).
  vm_compute. reflexivity.
Defined.

(** ** Soundness of the reachable worlds *)

Section Soundness.

Variable classes : class_id -> class_decl.

Lemma extends_refl hp : extends hp hp.
Proof. intros p b Hb. eauto. Qed.

Lemma extends_trans hp1 hp2 hp3 : extends hp1 hp2 → extends hp2 hp3 → extends hp1 hp3.
Proof.
  intros H12 H23 p b Hb.
  destruct (H12 p b Hb) as (b2 & Hb2 & Hh2).
  destruct (H23 p b2 Hb2) as (b3 & Hb3 & Hh3).
  exists b3. split; [done|]. intros T HT. by apply Hh3, Hh2.
Qed.

Lemma sound_extends hp hp' i :
  extends hp hp' → sound classes hp i → sound classes hp' i.
Proof.
  intros Hext. unfold sound. destruct (_t i) as [|T]; [done|].
  intros (Hp & Hc & b & Hb & Hh). split_and!; [done..|].
  destruct (Hext _ b Hb) as (b' & Hb' & Hh'). exists b'. split; [done|]. by apply Hh'.
Qed.

Lemma store_obj_extends p o hp hp' :
  store_obj p o hp = Ret tt hp' →
  (∀ b T, blocks hp !! p = Some b → holds T (blk_obj b) → holds T o) →
  extends hp hp'.
Proof.
  intros (b0 & Hb0 & ->)%store_obj_Ret Hholds q b Hb. simpl.
  destruct (decide (q = p)) as [->|Hne].
  - rewrite lookup_insert_eq. eexists. split; [done|]. simpl.
    intros T HT. by apply (Hholds b T).
  - rewrite lookup_insert_ne by done. eauto.
Qed.

Lemma new_bytes_extends n hp a hp' : new_bytes n hp = Ret a hp' → extends hp hp'.
Proof.
  intros (_ & Hfree & _ & ->)%new_bytes_Ret p b Hb. simpl.
  rewrite lookup_insert_ne by congruence. eauto.
Qed.

Lemma holds_raw T : ¬ holds T ORaw.
Proof. intros H. by destruct T. Qed.

(** Placing an object into raw storage disturbs nothing. *)
Lemma store_obj_raw p o hp hp' n :
  blocks hp !! p = Some {| blk_size := n; blk_obj := ORaw |} →
  store_obj p o hp = Ret tt hp' →
  extends hp hp' ∧ blocks hp' !! p = Some {| blk_size := n; blk_obj := o |}.
Proof.
  intros Hraw Hst. split.
  - apply (store_obj_extends p o); [done|]. intros b T Hb HT.
    rewrite Hraw in Hb. injection Hb as <-. by apply holds_raw in HT.
  - apply store_obj_Ret in Hst as (b & Hb & ->). simpl. rewrite lookup_insert_eq.
    rewrite Hraw in Hb. by injection Hb as <-.
Qed.

(** Updating the members of a class object keeps it readable. *)
Lemma store_obj_members p c s' hp hp' s :
  load_class c p hp = Some s → store_obj p (OClass c s') hp = Ret tt hp' →
  extends hp hp'.
Proof.
  intros [n Hl]%load_class_Some Hst. apply (store_obj_extends p (OClass c s')); [done|].
  intros b T Hb. rewrite Hl in Hb. injection Hb as <-. by destruct T.
Qed.

Lemma emplace_Throw U rvalue buf v hp hp' :
  emplace classes U rvalue buf v hp = Throw hp' → hp' = hp.
Proof.
  unfold emplace. destruct U as [c| |T], v as [c' s|a|]; try done.
  - destruct (decide (c' = c)); [|done].
    destruct (if rvalue then _ else _); [by intros ?%store_obj_no_throw|].
    by intros [= <-].
  - by intros ?%store_obj_no_throw.
  - by intros ?%store_obj_no_throw.
Qed.

Lemma interface_from_Throw I U rvalue v hp hp' :
  interface_from classes I U rvalue v hp = Throw hp' → hp' = hp.
Proof.
  unfold interface_from.
  destruct (negb _); [done|]. destruct (negb _); [done|]. destruct (negb _); [done|].
  unfold bind at 1.
  destruct (new_bytes (sizeof classes U) hp) as [buf hp1|hp1|] eqn:Hnew; [| |done].
  - unfold bind, unwinding.
    destruct (emplace classes U rvalue buf v hp1) as [[] hp2|hp2|] eqn:Hem; [done| |done].
    apply emplace_Throw in Hem as ->.
    rewrite (delete_fresh_buffer _ _ _ _ Hnew). by intros [= <-].
  - apply new_bytes_Throw in Hnew as [-> _]. by intros [= <-].
Qed.

(** The object the constructor from a value returns is sound, and its
    buffer is new. *)
Lemma interface_from_sound I U rvalue v hp r hp' :
  interface_from classes I U rvalue v hp = Ret r hp' →
  extends hp hp' ∧ sound classes hp' r ∧ well_typed r ∧ iface r = I ∧
  _ptr r ≠ nullptr ∧ blocks hp !! _ptr r = None.
Proof.
  intros Hctor. pose proof (interface_from_invariant classes _ _ _ _ _ _ _ Hctor) as [_ Hwt].
  apply interface_from_Ret in Hctor as (_ & Hcc & _ & buf & hp1 & Hnew & Hem & ->).
  pose proof (new_bytes_extends _ _ _ _ Hnew) as Hext1.
  apply new_bytes_Ret in Hnew as (Hbuf & Hfree & _ & ->).
  apply emplace_Ret in Hem as (o & Hst & Ho).
  eapply store_obj_raw in Hst as [Hext2 Hlook]; [|simpl; apply lookup_insert_eq].
  split_and!; [by eapply extends_trans| |done..]. simpl in *.
  unfold sound, get_thunk; simpl. destruct U as [c| |T]; simpl in *.
  - split_and!; [done..|]. eexists. split; [done|]. simpl.
    by destruct Ho as (s0 & s & _ & -> & _).
  - split_and!; [done..|]. eexists. split; [done|]. simpl.
    by destruct Ho as (a & _ & ->).
  - split_and!; [done..|]. eexists. split; [done|]. simpl.
    by destruct Ho as (a & _ & ->).
Qed.

Lemma move_construct_Throw T dst src hp hp' :
  move_construct classes T dst src hp = Throw hp' → hp' = hp.
Proof.
  unfold move_construct. destruct T as [c| |T].
  - destruct (load_class c src hp) as [s|]; [|done].
    destruct (cls_move (classes c) s) as [[s' rest]|]; [|by intros [= <-]].
    unfold bind. destruct (store_obj src _ hp) as [[] hp1|hp1|] eqn:E1; [| |done].
    + by intros ?%store_obj_no_throw.
    + by apply store_obj_no_throw in E1.
  - destruct (load_ptr src hp) as [a|]; [|done]. by intros ?%store_obj_no_throw.
  - destruct (load_ptr src hp) as [a|]; [|done]. by intros ?%store_obj_no_throw.
Qed.

(** The copy and the move operation of a thunk, run on a raw buffer: the
    buffer then holds an object of the type, the rest stays readable. *)
Lemma thunk_op_sound (by_copy : bool) T buf src hp hp' n :
  blocks hp !! buf = Some {| blk_size := n; blk_obj := ORaw |} →
  (if by_copy then copy_construct classes T else move_construct classes T)
    buf src hp = Ret tt hp' →
  extends hp hp' ∧ ∃ b, blocks hp' !! buf = Some b ∧ holds T (blk_obj b).
Proof.
  intros Hraw. destruct by_copy.
  - intros Hcc%copy_construct_Ret. destruct T as [c| |T].
    + destruct Hcc as (s & s' & _ & _ & Hst).
      destruct (store_obj_raw _ _ _ _ _ Hraw Hst) as [Hext Hl]. split; [done|].
      eexists. split; done.
    + destruct Hcc as (a & _ & Hst).
      destruct (store_obj_raw _ _ _ _ _ Hraw Hst) as [Hext Hl]. split; [done|].
      eexists. split; done.
    + destruct Hcc as (a & _ & Hst).
      destruct (store_obj_raw _ _ _ _ _ Hraw Hst) as [Hext Hl]. split; [done|].
      eexists. split; done.
  - unfold move_construct. destruct T as [c| |T].
    + destruct (load_class c src hp) as [s|] eqn:Hs; [|done].
      destruct (cls_move (classes c) s) as [[s' rest]|]; [|done].
      unfold bind. destruct (store_obj src _ hp) as [[] hp1|hp1|] eqn:E1; [|done..].
      intros Hst.
      pose proof (store_obj_members _ _ _ _ _ _ Hs E1) as Hext1.
      assert (src ≠ buf) as Hne.
      { intros ->. apply load_class_Some in Hs as [m Hm]. congruence. }
      assert (blocks hp1 !! buf = Some {| blk_size := n; blk_obj := ORaw |}) as Hraw1.
      { apply store_obj_Ret in E1 as (b & _ & ->). simpl.
        by rewrite lookup_insert_ne. }
      destruct (store_obj_raw _ _ _ _ _ Hraw1 Hst) as [Hext2 Hl].
      split; [by eapply extends_trans|]. eexists. split; done.
    + destruct (load_ptr src hp) as [a|]; [|done]. intros Hst.
      destruct (store_obj_raw _ _ _ _ _ Hraw Hst) as [Hext Hl]. split; [done|].
      eexists. split; done.
    + destruct (load_ptr src hp) as [a|]; [|done]. intros Hst.
      destruct (store_obj_raw _ _ _ _ _ Hraw Hst) as [Hext Hl]. split; [done|].
      eexists. split; done.
Qed.

Lemma thunk_op_Throw (by_copy : bool) T buf src hp hp' :
  (if by_copy then copy_construct classes T else move_construct classes T)
    buf src hp = Throw hp' → hp' = hp.
Proof.
  destruct by_copy.
  - by intros [-> _]%copy_construct_Throw.
  - apply move_construct_Throw.
Qed.

(** [construct] from a sound object, by copy or by move: the object it
    returns is sound and its buffer, if it has one, is new; if it throws, the
    memory is as before. *)
Lemma construct_sound I by_copy io hp :
  sound classes hp io →
  match construct classes I by_copy io hp with
  | Ret r hp' =>
      extends hp hp' ∧ sound classes hp' r ∧ well_typed r ∧ iface r = I ∧
      (_ptr r ≠ nullptr → blocks hp !! _ptr r = None)
  | Throw hp' => hp' = hp
  | Undefined => True
  end.
Proof.
  intros Hs.
  destruct (construct classes I by_copy io hp) as [r hp'|hp'|] eqn:Hcons; [| |done].
  - destruct (construct_invariant classes _ _ _ _ _ _ Hcons) as [_ Hwt].
    apply construct_Ret in Hcons
      as (vt & Hvt & [(_ & -> & ->)|(Hp & th & f & buf & hp1 & Hth & Hf & Hnew & Hop & ->)]).
    { split_and!; [apply extends_refl|done..]. }
    destruct (_t io) as [|T] eqn:Ht; [done|].
    destruct (thunk_deref_sound classes hp io T Hs Ht) as (Hth' & _).
    rewrite Ht in Hth'. rewrite Hth' in Hth. injection Hth as <-.
    unfold sound in Hs. rewrite Ht in Hs. destruct Hs as (_ & Hc & _).
    pose proof (new_bytes_extends _ _ _ _ Hnew) as Hext1.
    apply new_bytes_Ret in Hnew as (Hbuf & Hfree & _ & ->).
    assert (f = if by_copy then copy_construct classes T else move_construct classes T)
      as ->.
    { unfold thunk_storage in Hf. rewrite Hc in Hf. simpl in Hf.
      destruct by_copy; by injection Hf as <-. }
    eapply thunk_op_sound in Hop as (Hext2 & b & Hb & Hh);
      [|simpl; apply lookup_insert_eq].
    split_and!; [by eapply extends_trans| |done..].
    unfold sound; simpl. split_and!; [done..|]. by exists b.
  - revert Hcons. unfold construct, operator_bool, fetch_ptr, fetch_thunk.
    destruct (mapM _ I); [|done].
    destruct (negb _); [done|].
    destruct (_t io) as [|T] eqn:Ht; [done|]. simpl.
    unfold sound in Hs. rewrite Ht in Hs. destruct Hs as (_ & Hc & _).
    unfold thunk_storage. rewrite Hc. simpl.
    unfold bind at 1.
    destruct (new_bytes (sizeof classes T) hp) as [buf hp1|hp1|] eqn:Hnew; [| |done].
    + unfold bind, unwinding.
      replace (match (if by_copy then Some (copy_construct classes T)
                      else Some (move_construct classes T)) with
               | Some f => f buf (_ptr io)
               | None => λ _, Undefined
               end)
        with ((if by_copy then copy_construct classes T else move_construct classes T)
                buf (_ptr io)) by (by destruct by_copy).
      destruct ((if by_copy then _ else _) buf (_ptr io) hp1) as [[] hp2|hp2|] eqn:Hop;
        [done| |done].
      apply thunk_op_Throw in Hop as ->.
      rewrite (delete_fresh_buffer _ _ _ _ Hnew). by intros [= <-].
    + apply new_bytes_Throw in Hnew as [-> _]. by intros [= <-].
Qed.

(** A member call only updates the members of a class object. *)
Lemma method_extends name i args hp :
  match method classes name i args hp with
  | Ret _ hp' => extends hp hp'
  | Throw hp' => hp' = hp
  | Undefined => True
  end.
Proof.
  unfold method. destruct (get_ name i) as [[|n U]|]; [by simpl| |by simpl]. simpl.
  unfold factory_call. destruct (object_class U) as [c|]; [|done].
  destruct (as_object U (_ptr i) hp) as [a|]; [|done].
  unfold invoke. destruct (cls_methods (classes c) n) as [f|]; [|by simpl].
  destruct (load_class c a hp) as [s|] eqn:Hs; [|by simpl].
  unfold bind. destruct (store_obj a _ hp) as [[] hp'|hp'|] eqn:Hst; [| |by simpl].
  - by eapply store_obj_members.
  - by apply store_obj_no_throw in Hst.
Qed.

Lemma world_sound_mem w hp' :
  world_sound classes w → extends (mem w) hp' →
  world_sound classes {| mem := hp'; vars := vars w |}.
Proof.
  intros [Hs Hx] Hext. split; [|done]. intros x i Hi. simpl in *.
  destruct (Hs x i Hi) as (? & ? & ?). split_and!; [|done..]. by eapply sound_extends.
Qed.

Lemma world_sound_eta w :
  world_sound classes w → world_sound classes {| mem := mem w; vars := vars w |}.
Proof. by destruct w. Qed.

(** No object alive has its buffer at an address that is not allocated. *)
Lemma world_sound_fresh w p y iy :
  world_sound classes w → blocks (mem w) !! p = None →
  vars w !! y = Some iy → _ptr iy ≠ nullptr → _ptr iy ≠ p.
Proof.
  intros [Hs _] Hfree Hy Hne. destruct (Hs y iy Hy) as (Hsound & _).
  unfold sound in Hsound. destruct (_t iy) as [|T]; [done|].
  destruct Hsound as (_ & _ & b & Hb & _). congruence.
Qed.

Lemma world_sound_declare w x i :
  world_sound classes w → vars w !! x = None →
  sound classes (mem w) i → well_typed i → NoDup (iface i) →
  (_ptr i ≠ nullptr → ∀ y iy, vars w !! y = Some iy → _ptr iy ≠ _ptr i) →
  world_sound classes {| mem := mem w; vars := <[x := i]> (vars w) |}.
Proof.
  intros [Hs Hx] Hfree Hsi Hwt Hnd Hnew. split; simpl.
  - intros y j. rewrite lookup_insert. case_decide; [by intros [= <-]|]. apply Hs.
  - intros a b ia ib Hab Ha Hb Hp. rewrite lookup_insert in Ha, Hb.
    destruct (decide (x = a)) as [Exa|Hxa], (decide (x = b)) as [Exb|Hxb];
      [congruence| | |].
    + injection Ha as <-. apply not_eq_sym. by apply (Hnew Hp b).
    + injection Hb as <-.
      destruct (decide (_ptr i = nullptr)) as [E|Hnz]; [by rewrite E|].
      by apply (Hnew Hnz a).
    + by apply (Hx a b).
Qed.

Lemma keeps_declared I : keeps classes (declared I).
Proof. intros w Hw. unfold declared. by case_decide. Qed.

Lemma keeps_default_ctor x I : NoDup I → keeps classes (default_ctor x I).
Proof.
  intros Hnd w Hw. unfold default_ctor, declare, set_var.
  destruct (vars w !! x) eqn:Hx; [done|].
  apply world_sound_declare; try done. apply default_interface_invariant.
Qed.

(** A new object from [interface_from] or [construct] enters a sound world. *)
Lemma keeps_new_object (m : heap → result heap interface) x :
  (∀ hp, match m hp with
         | Ret r hp' =>
             extends hp hp' ∧ sound classes hp' r ∧ well_typed r ∧ NoDup (iface r) ∧
             (_ptr r ≠ nullptr → blocks hp !! _ptr r = None)
         | Throw hp' => hp' = hp
         | Undefined => True
         end) →
  keeps classes (let* i := in_mem m in declare x i).
Proof.
  intros Hm w Hw. unfold bind, in_mem. specialize (Hm (mem w)).
  destruct (m (mem w)) as [r hp'|hp'|]; [| |done].
  - destruct Hm as (Hext & Hsr & Hwt & Hnd & Hnew).
    unfold declare, set_var; simpl. destruct (vars w !! x) eqn:Hx; [done|].
    apply (world_sound_declare {| mem := hp'; vars := vars w |}); try done.
    + by apply world_sound_mem.
    + intros Hp y iy Hy. simpl in Hy.
      destruct (decide (_ptr iy = nullptr)) as [E|Hnz]; [by rewrite E|].
      eapply world_sound_fresh; eauto.
  - subst hp'. by apply world_sound_eta.
Qed.

Lemma keeps_value_ctor x I U rvalue v : NoDup I → keeps classes (value_ctor classes x I U rvalue v).
Proof.
  intros Hnd. apply keeps_new_object. intros hp.
  destruct (interface_from classes I U rvalue v hp) as [r hp'|hp'|] eqn:E; [| |done].
  - apply interface_from_sound in E as (? & ? & ? & <- & ? & ?). done.
  - by apply interface_from_Throw in E.
Qed.

Lemma keeps_construct x (I : interface → list string) by_copy other :
  (∀ w io, world_sound classes w → vars w !! other = Some io → NoDup (I io)) →
  keeps classes (let* io := get_var other in
         let* i := in_mem (construct classes (I io) by_copy io) in declare x i).
Proof.
  intros Hnd w Hw. unfold bind at 1, get_var.
  destruct (vars w !! other) as [io|] eqn:Ho; [|done].
  pose proof (Hnd w io Hw Ho) as HI.
  destruct Hw as [Hs Hx]. destruct (Hs other io Ho) as (Hsio & _).
  unfold bind, in_mem.
  pose proof (construct_sound (I io) by_copy io (mem w) Hsio) as Hc.
  destruct (construct classes (I io) by_copy io (mem w)) as [r hp'|hp'|]; [| |done].
  - destruct Hc as (Hext & Hsr & Hwt & Hir & Hnew).
    unfold declare, set_var; simpl. destruct (vars w !! x) eqn:Hfree; [done|].
    apply (world_sound_declare {| mem := hp'; vars := vars w |}); try done.
    + by apply world_sound_mem.
    + by rewrite Hir.
    + intros Hp y iy Hy. simpl in Hy.
      destruct (decide (_ptr iy = nullptr)) as [E|Hnz]; [by rewrite E|].
      eapply (world_sound_fresh w); eauto. done.
  - subst hp'. by apply world_sound_eta.
Qed.

Lemma keeps_swap x y : keeps classes (swap x y).
Proof.
  intros w Hw. destruct (swap x y w) as [[] w'|w'|] eqn:Hsw; [| |done].
  - apply swap_inv in Hsw as (ix & iy & Hx & Hy & _ & [= ->]); [|done].
    destruct Hw as [Hs Hex]. split; simpl.
    + intros z i Hz. rewrite !lookup_insert in Hz.
      destruct (decide (y = z)); [injection Hz as <-; by apply (Hs x)|].
      destruct (decide (x = z)); [injection Hz as <-; by apply (Hs y)|].
      by apply (Hs z).
    + intros a b ia ib Hab Ha Hb Hp. rewrite !lookup_insert in Ha, Hb.
      destruct (decide (y = a)) as [Eya|Nya];
        [injection Ha as <-
        |destruct (decide (x = a)) as [Exa|Nxa]; [injection Ha as <-|]];
      (destruct (decide (y = b)) as [Eyb|Nyb];
        [injection Hb as <-
        |destruct (decide (x = b)) as [Exb|Nxb]; [injection Hb as <-|]]);
      try congruence.
      * apply (Hex x y); [congruence|done..].
      * apply (Hex x b); [congruence|done..].
      * apply (Hex y x); [congruence|done..].
      * apply (Hex y b); [congruence|done..].
      * apply (Hex a x); [congruence|done..].
      * apply (Hex a y); [congruence|done..].
      * by apply (Hex a b).
  - apply swap_inv in Hsw as (ix & iy & _ & _ & _ & [=]). done.
Qed.

Lemma keeps_move_ctor x other : keeps classes (move_ctor x other).
Proof.
  eapply triple_bind; [apply triple_get_var_any|]. intros io.
  apply (triple_pre _ (λ w, world_sound classes w ∧ NoDup (iface io))).
  { intros w [[Hs Hx] Ho]. split; [done|]. by apply (Hs other io). }
  eapply triple_bind; [|intros ?; apply keeps_swap].
  intros w [Hw Hnd]. unfold declare, set_var. destruct (vars w !! x) eqn:Hx; [done|].
  apply world_sound_declare; try done. apply default_interface_invariant.
Qed.

Lemma sound_released hp i j :
  sound classes hp j → (_ptr j ≠ nullptr → _ptr j ≠ _ptr i) →
  sound classes (released i hp) j.
Proof.
  unfold sound. destruct (_t j) as [|T]; [done|].
  intros (Hp & Hc & b & Hb & Hh) Hne. split_and!; [done..|].
  exists b. split; [|done]. rewrite released_lookup_ne; [done|]. by apply Hne.
Qed.

Lemma keeps_end_of_scope x : keeps classes (end_of_scope classes x).
Proof.
  intros w [Hs Hx]. destruct (vars w !! x) as [i|] eqn:Hi; cycle 1.
  { unfold end_of_scope, bind, get_var. by rewrite Hi. }
  destruct (Hs x i Hi) as (Hsi & _).
  rewrite (end_of_scope_Ret classes x w i Hi Hsi). split; simpl.
  - intros y j. rewrite lookup_delete. case_decide; [done|]. intros Hj.
    destruct (Hs y j Hj) as (? & ? & ?). split_and!; [|done..].
    apply sound_released; [done|]. intros Hp. by apply (Hx y x).
  - intros a b ia ib Hab. rewrite !lookup_delete. repeat case_decide; try done.
    by apply Hx.
Qed.

Lemma keeps_call x name args : keeps classes (let* _ := call classes x name args in Ret tt).
Proof.
  intros w Hw. unfold call, bind, get_var.
  destruct (vars w !! x) as [i|]; [|by simpl]. unfold in_mem.
  pose proof (method_extends name i args (mem w)) as Hm.
  destruct (method classes name i args (mem w)) as [z hp'|hp'|]; [| |by simpl].
  - by apply world_sound_mem.
  - subst hp'. by apply world_sound_eta.
Qed.

(** Every statement keeps the world sound, whether it returns or throws. *)
Lemma exec_keeps_sound s : keeps classes (exec classes s).
Proof.
  destruct s; simpl.
  - intros w Hw. unfold bind, declared. case_decide; [|done].
    by apply keeps_default_ctor.
  - intros w Hw. unfold bind, declared. case_decide; [|done].
    by apply keeps_value_ctor.
  - apply (keeps_construct x iface). intros w io [Hs _] Ho. by apply (Hs other io).
  - apply keeps_move_ctor.
  - intros w Hw. unfold bind at 1, declared. case_decide; [|done].
    by apply (keeps_construct x (λ _, I)).
  - apply (triple_assign classes _ (copy_ctor classes));
      [|apply keeps_swap|apply keeps_end_of_scope].
    intros x y. apply (keeps_construct x iface). intros w io [Hs _] Ho.
    by apply (Hs y io).
  - apply (triple_assign classes _ move_ctor);
      [apply keeps_move_ctor|apply keeps_swap|apply keeps_end_of_scope].
  - apply keeps_swap.
  - apply keeps_call.
  - apply keeps_end_of_scope.
Qed.

(** In every world a program can reach, every interface object is sound, of
    a well-formed class, and the only owner of its buffer: the hypotheses of
    the theorems on equality, conversion and assignment hold there. *)
Lemma reachable_sound w : reachable classes w → world_sound classes w.
Proof.
  induction 1 as [hp|s w w' _ IH Hs|s w w' _ IH Hs].
  - split; intros *; simpl; by rewrite ?lookup_empty.
  - pose proof (exec_keeps_sound s w IH) as H. by rewrite Hs in H.
  - pose proof (exec_keeps_sound s w IH) as H. by rewrite Hs in H.
Qed.

Lemma sound_invariant hp i :
  sound classes hp i → invariant i ∧ payload_ok hp i.
Proof.
  unfold sound, invariant, payload_ok. destruct (_t i) as [|T].
  - intros ->. done.
  - intros (Hp & _ & Hb). split; [|done]. split; done.
Qed.

End Soundness.

(** ** Equality, conversion and assignment in a running program *)

Section Programs.

Variable classes : class_id -> class_decl.

(** A non-empty object of a reachable world is bound to a type. *)
Lemma reachable_bound_to w x i :
  reachable classes w → vars w !! x = Some i → _ptr i ≠ nullptr →
  ∃ U, bound_to classes U (mem w) i.
Proof.
  intros Hr Hx Hp.
  destruct (reachable_sound classes w Hr) as [Hs _].
  destruct (Hs x i Hx) as (Hsound & _).
  destruct (reachable_invariant classes w Hr x i Hx) as (Hinv & _ & Hd).
  destruct Hd as [Hn|(U & Ht & Hv)]; [by apply Hinv in Hn|].
  exists U. unfold sound in Hsound. rewrite Ht in Hsound. unfold get_thunk in *.
  destruct (is_pointer_v U) eqn:HU.
  - destruct Hsound as (_ & _ & b & Hb & Hh). split_and!; [done| |by destruct U|done|].
    + unfold get_thunk. by rewrite HU.
    + exists b. split; [done|]. destruct U, b as [n []]; simpl in *; done.
  - destruct Hsound as (_ & Hc & b & Hb & Hh). split_and!; [done| |done..|].
    + unfold get_thunk. by rewrite HU.
    + by exists b.
Qed.

(** The constructor from a value of type [U] makes an object bound to
    [U]; from a pointer, the buffer holds that pointer. *)
Lemma interface_from_bound_to I U rvalue v hp r hp' :
  interface_from classes I U rvalue v hp = Ret r hp' →
  bound_to classes U hp' r ∧
  (is_pointer_v U = true → ∃ a, v = OPtr a ∧ load_ptr (_ptr r) hp' = Some a).
Proof.
  intros (_ & Hcc & _ & buf & hp1 & Hnew & Hem & ->)%interface_from_Ret.
  apply new_bytes_Ret in Hnew as (Hbuf & _).
  apply emplace_Ret in Hem as (o & Hst & Ho).
  apply store_obj_lookup in Hst as [n Hn]. simpl. split.
  - split_and!; [done..|]. eexists. split; [done|]. simpl.
    destruct U as [c| |T].
    + by destruct Ho as (s0 & s & _ & -> & _).
    + by destruct Ho as (a & _ & ->).
    + by destruct Ho as (a & _ & ->).
  - intros HU. destruct U as [c| |T]; [done| |];
      destruct Ho as (a & -> & ->); exists a; (split; [done|]);
      apply load_ptr_Some; eauto.
Qed.

Lemma value_ctor_bound_to x I U rvalue v w w' :
  value_ctor classes x I U rvalue v w = Ret tt w' →
  ∃ r, vars w' !! x = Some r ∧ bound_to classes U (mem w') r ∧
       (is_pointer_v U = true → ∃ a, v = OPtr a ∧ load_ptr (_ptr r) (mem w') = Some a).
Proof.
  unfold value_ctor, bind, in_mem.
  destruct (interface_from classes I U rvalue v (mem w)) as [r hp'| |] eqn:E; [|done..].
  unfold declare, set_var. simpl. destruct (vars w !! x); [done|].
  intros [= <-]. simpl. exists r. rewrite lookup_insert_eq.
  destruct (interface_from_bound_to _ _ _ _ _ _ _ E). done.
Qed.

(** In a running program the code's test for reference mode, the thunk
    being the one of void*, holds of the pointer-wrapped objects and of no
    other; the non-empty objects it fails on are the value-wrapped ones; and
    every object is empty, pointer-wrapped or value-wrapped. *)
Lemma reachable_kinds w x i :
  reachable classes w → vars w !! x = Some i →
  (reference_mode i ↔ ∃ a, pointer_wrapped classes (mem w) i a) ∧
  (value_mode i ↔ value_wrapped classes (mem w) i) ∧
  (empty i ∨ (∃ a, pointer_wrapped classes (mem w) i a) ∨ value_wrapped classes (mem w) i).
Proof.
  intros Hr Hx. unfold reference_mode, value_mode, empty.
  destruct (reachable_invariant classes w Hr x i Hx) as (Hinv & _).
  destruct (decide (_ptr i = nullptr)) as [Hp|Hp].
  - pose proof (proj1 Hinv Hp) as Ht. rewrite Ht. split_and!; [| |by left].
    + split; [done|]. by intros (a & U & _ & (? & _) & _).
    + split; [by intros [? _]|]. by intros (c & ? & _).
  - destruct (reachable_bound_to w x i Hr Hx Hp) as [U Hb].
    pose proof Hb as (_ & Ht & _ & _ & b & Hblk & Hh). rewrite Ht.
    rewrite is_pointer_thunk_get_thunk.
    destruct (is_pointer_v U) eqn:HU.
    + assert (∃ a, pointer_wrapped classes (mem w) i a) as Hpw.
      { destruct b as [n [c s|a|]]; [by destruct U|..|by destruct U].
        exists a, U. split_and!; [done..|]. apply load_ptr_Some. eauto. }
      split_and!; [done| |by right; left].
      split; [by intros [_ ?]|]. intros (c & _ & Ht' & _).
      rewrite Ht, (get_thunk_pointer U HU) in Ht'. discriminate Ht'.
    + destruct U as [c| |T]; [|done..].
      assert (value_wrapped classes (mem w) i) as Hvw by (by exists c).
      split_and!; [|done|by right; right].
      split; [done|]. intros (a & V & HV & (_ & Ht' & _) & _).
      rewrite Ht, (get_thunk_pointer V HV) in Ht'. discriminate Ht'.
Qed.

(** C3: in a running program the constructor from a pointer makes a
    pointer-wrapped object that stores the pointer, and the constructor from
    an object of a class a value-wrapped one; every object is empty,
    pointer-wrapped or value-wrapped.  For two interface objects of one
    interface class, operator== returns true iff both are empty, or both are
    pointer-wrapped (in reference mode) and the pointers they store are equal;
    it returns false as soon as one of the two is value-wrapped, whatever the
    payloads; operator!= returns the negation. *)
Theorem operator_eq_iff w x y i j :
  reachable classes w →
  vars w !! x = Some i → vars w !! y = Some j → iface i = iface j →
  (∃ b, operator_eq i j (mem w) = Some b ∧
        operator_ne i j (mem w) = Some (negb b) ∧
        (b = true ↔
           (empty i ∧ empty j) ∨
           (∃ a, pointer_wrapped classes (mem w) i a ∧
                 pointer_wrapped classes (mem w) j a)) ∧
        (b = true ↔
           (empty i ∧ empty j) ∨
           (reference_mode i ∧ reference_mode j ∧
            load_ptr (_ptr i) (mem w) = load_ptr (_ptr j) (mem w))) ∧
        (value_wrapped classes (mem w) i ∨ value_wrapped classes (mem w) j → b = false) ∧
        (value_mode i ∨ value_mode j → b = false)) ∧
  (∀ z k, vars w !! z = Some k →
     (reference_mode k ↔ ∃ a, pointer_wrapped classes (mem w) k a) ∧
     (value_mode k ↔ value_wrapped classes (mem w) k) ∧
     (empty k ∨ (∃ a, pointer_wrapped classes (mem w) k a) ∨
      value_wrapped classes (mem w) k)) ∧
  (∀ z J U rvalue a w', is_pointer_v U = true →
     value_ctor classes z J U rvalue (OPtr a) w = Ret tt w' →
     ∃ r, vars w' !! z = Some r ∧ pointer_wrapped classes (mem w') r a) ∧
  (∀ z J c rvalue s w',
     value_ctor classes z J (TClass c) rvalue (OClass c s) w = Ret tt w' →
     ∃ r, vars w' !! z = Some r ∧ value_wrapped classes (mem w') r).
Proof.
  intros Hr Hx Hy _.
  destruct (reachable_sound classes w Hr) as [Hs _].
  destruct (Hs x i Hx) as (Hi & _). destruct (Hs y j Hy) as (Hj & _).
  apply sound_invariant in Hi as [Hinv Hpi]. apply sound_invariant in Hj as [_ Hpj].
  destruct (reachable_kinds w x i Hr Hx) as (Hri & Hvi & _).
  destruct (reachable_kinds w y j Hr Hy) as (Hrj & Hvj & _).
  split_and!.
  - destruct (operator_eq_cases (mem w) i j Hinv Hpi Hpj) as (b & Heq & Hne & Hiff & Hval).
    exists b. split_and!; [done..| |done| |done].
    + rewrite Hiff. split; (intros [?|H]; [by left|right]).
      * destruct H as (Hi' & Hj' & Hl).
        apply Hri in Hi' as [a Ha]. apply Hrj in Hj' as [a' Ha'].
        pose proof Ha as (_ & _ & _ & Hla). pose proof Ha' as (_ & _ & _ & Hla').
        assert (a' = a) as -> by congruence. eauto.
      * destruct H as (a & Ha & Ha').
        pose proof Ha as (_ & _ & _ & Hla). pose proof Ha' as (_ & _ & _ & Hla').
        split_and!; [apply Hri; eauto|apply Hrj; eauto|congruence].
    + intros [?%Hvi|?%Hvj]; apply Hval; auto.
  - intros z k Hz. exact (reachable_kinds w z k Hr Hz).
  - intros z J U rvalue a w' HU (r & Hz & Hb & Hl)%value_ctor_bound_to.
    exists r. split; [done|]. exists U. split_and!; [done..|].
    destruct (Hl HU) as (a' & [= <-] & ?). done.
  - intros z J c rvalue s w' (r & Hz & Hb & _)%value_ctor_bound_to.
    exists r. split; [done|]. by exists c.
Qed.


(** C8: the assignments are copy (or move) construction of a temporary,
    swap, and destruction of the temporary.  On two interface objects of one
    interface class in a running program, the same object twice included,
    copy assignment either returns, the left side then holding a copy of
    what the right side held and the right side being as before, or throws
    because the copy failed (no memory, or the copy constructor threw), and
    then objects and memory are exactly as they were; its behaviour is never
    undefined.  Move assignment always returns, the left side then holding
    the state the right side had. *)
Theorem assignment_all_or_nothing w this other it io :
  reachable classes w →
  vars w !! this = Some it → vars w !! other = Some io → iface it = iface io →
  match copy_assign classes this other w with
  | Ret _ w' =>
      ∃ r, vars w' = <[this := r]> (vars w) ∧
           copy_of classes (mem w) io (mem w') r ∧
           (this ≠ other →
              vars w' !! other = Some io ∧
              blocks (mem w') !! _ptr io = blocks (mem w) !! _ptr io)
  | Throw w' =>
      w' = w ∧ ∃ T, _t io = thunk_at T ∧ copy_failed classes T (_ptr io) (mem w)
  | Undefined => False
  end ∧
  ∃ w', move_assign classes this other w = Ret tt w' ∧
        vars w' !! this = Some io ∧
        (this ≠ other → vars w' !! other = Some (default_interface (iface io))) ∧
        (∀ y, y ≠ this → y ≠ other → vars w' !! y = vars w !! y) ∧
        blocks (mem w') !! _ptr io = blocks (mem w) !! _ptr io.
Proof.
  intros Hr Hthis Hother Hty.
  destruct (reachable_sound classes w Hr) as [Hs Hex].
  destruct (Hs this it Hthis) as (Hsit & _).
  destruct (Hs other io Hother) as (Hsio & Hwt & Hnd).
  apply (assignment_cases classes this other w it io); try done.
  intros Hne. by apply (Hex this other).
Qed.

End Programs.

Lemma demo_w3_reachable : reachable Demo.classes Demo.w3.
Proof.
  apply (reachable_return Demo.classes
           (Wrap 1%nat Demo.Shape2 (TClass Demo.counter) false (OClass Demo.counter [5%Z]))
           Demo.w0 Demo.w3 (reachable_start Demo.classes Demo.hp0)).
  vm_compute. reflexivity.
Defined.



Lemma demo_run_reachable ss :
  ∀ w0 w, reachable Demo.classes w0 → reachable Demo.classes w →
    reachable Demo.classes match Demo.run ss w with Ret _ w' => w' | _ => w0 end.
Proof.
  induction ss as [|s ss IH]; intros w0 w Hw0 Hw; [exact Hw|].
  simpl. destruct (exec Demo.classes s w) as [[] w1|w1|] eqn:He; [|exact Hw0..].
  exact (IH w0 w1 Hw0 (reachable_return Demo.classes s w w1 Hw He)).
Defined.

Lemma demo_three_refs_reachable : reachable Demo.classes Demo.three_refs.
Proof.
  apply demo_run_reachable; exact (reachable_start Demo.classes Demo.hp0).
Defined.


Lemma demo_refs_wrap_same_pointer :
  pointer_wrapped Demo.classes (mem Demo.three_refs) Demo.a_ref 100 ∧
  pointer_wrapped Demo.classes (mem Demo.three_refs) Demo.b_ref 100.
Proof.
  split; exists (TPtr (TClass Demo.counter));
    (split; [reflexivity|]); (split; [|vm_compute; reflexivity]);
    (split; [intros H; vm_compute in H; discriminate H|]);
    (split; [reflexivity|]); (split; [reflexivity|]); (split; [reflexivity|]);
    eexists; (split; [vm_compute; reflexivity|exact I]).
Defined.

Lemma operator_eq_iff_witness :
  operator_eq Demo.a_ref Demo.b_ref (mem Demo.three_refs) = Some true ∧
  operator_ne Demo.a_ref Demo.b_ref (mem Demo.three_refs) = Some false.
Proof.
  assert (Hx : vars Demo.three_refs !! 1%nat = Some Demo.a_ref) by (vm_compute; reflexivity).
  assert (Hy : vars Demo.three_refs !! 2%nat = Some Demo.b_ref) by (vm_compute; reflexivity).
  destruct (operator_eq_iff Demo.classes Demo.three_refs 1%nat 2%nat Demo.a_ref Demo.b_ref
              demo_three_refs_reachable Hx Hy eq_refl)
    as ((b & Heq & Hne & Hiff & _) & _).
  assert (b = true) as ->.
  { apply Hiff. right. exists 100. exact demo_refs_wrap_same_pointer. }
  exact (conj Heq Hne).
Defined.



Lemma assignment_all_or_nothing_witness :
  ∃ w', move_assign Demo.classes 1%nat 2%nat Demo.w2 = Ret tt w' ∧
        vars w' !! 1%nat = Some Demo.b_square.
Proof.
  destruct (assignment_all_or_nothing Demo.classes Demo.w2 1%nat 2%nat
              Demo.a_square Demo.b_square demo_w2_reachable eq_refl eq_refl eq_refl)
    as (_ & w' & Hm & Hthis & _).
  exists w'. exact (conj Hm Hthis).
Defined.

(** ** The demo program, evaluated *)

Section Scenario.

Import Demo.
Open Scope string_scope.

Example square_area :
  observe (call classes 1%nat "area" [] two_shapes) = Returns 16%Z.
Proof. vm_compute. reflexivity. Qed.

Example square_is_not_counter :
  (s ← vars two_shapes !! 1%nat; k ← vars two_shapes !! 2%nat;
   operator_ne s k (mem two_shapes)) = Some true.
Proof. vm_compute. reflexivity. Qed.

Example square_targets :
  (s ← vars two_shapes !! 1%nat;
   Some (target (TClass square) s, target (TClass counter) s)) = Some (201, nullptr).
Proof. vm_compute. reflexivity. Qed.

Example same_pointee_equal :
  (a ← vars three_refs !! 1%nat; b ← vars three_refs !! 2%nat;
   operator_eq a b (mem three_refs)) = Some true.
Proof. vm_compute. reflexivity. Qed.

Example other_pointee_different :
  (a ← vars three_refs !! 1%nat; d ← vars three_refs !! 3%nat;
   operator_eq a d (mem three_refs)) = Some false.
Proof. vm_compute. reflexivity. Qed.

(** A call through a reference goes to the object outside: the Counter at
    100 counts on. *)
Example reference_call_reaches_pointee :
  match call classes 1%nat "area" [] three_refs with
  | Ret r w => Some (r, load_class counter 100 (mem w))
  | _ => None
  end = Some (7%Z, Some [8%Z]).
Proof. vm_compute. reflexivity. Qed.

(** e = f; of [Demo.fragile_world] throws and leaves everything as it was. *)
Example copy_assign_throws_and_restores :
  exec classes (CopyAssign 2%nat 1%nat) fragile_world = Throw fragile_world.
Proof. vm_compute. reflexivity. Qed.

Example move_assign_of_fragile_returns :
  match exec classes (MoveAssign 2%nat 1%nat) fragile_world with
  | Ret _ w => (operator_bool <$> vars w !! 1%nat, operator_bool <$> vars w !! 2%nat)
  | _ => (None, None)
  end = (Some false, Some true).
Proof. vm_compute. reflexivity. Qed.

(** With 3 bytes left, the buffer for a Square cannot be allocated. *)
Example out_of_memory :
  exec classes (Wrap 1%nat Shape (TClass square) false (OClass square [4%Z]))
    {| mem := {| blocks := ∅; avail := 3 |}; vars := ∅ |}
  = Throw {| mem := {| blocks := ∅; avail := 3 |}; vars := ∅ |}.
Proof. vm_compute. reflexivity. Qed.

(** A move-only class cannot be wrapped: the static_assert fails. *)
Example move_only_is_rejected :
  interface_from classes [] (TClass move_only) true (OClass move_only [1%Z]) hp0
  = Undefined.
Proof. vm_compute. reflexivity. Qed.

End Scenario.

(** ** Exceptions *)

Section Exceptions.

Variable classes : class_id -> class_decl.

Lemma bind_Throw {S A B} (m : S → result S A) (k : A → S → result S B) s s' :
  bind m k s = Throw s' →
  m s = Throw s' ∨ ∃ a s1, m s = Ret a s1 ∧ k a s1 = Throw s'.
Proof.
  unfold bind. destruct (m s) as [a s1|s1|]; intros H; [|left; congruence|done].
  right. by exists a, s1.
Qed.

Lemma get_var_Ret x w i w1 : get_var x w = Ret i w1 → w1 = w ∧ vars w !! x = Some i.
Proof. unfold get_var. destruct (vars w !! x); [|done]. by intros [= <- <-]. Qed.

Lemma get_var_no_throw x w w' : get_var x w ≠ Throw w'.
Proof. unfold get_var. by destruct (vars w !! x). Qed.

Lemma same_type_Ret i j w u w1 : same_type i j w = Ret u w1 → w1 = w.
Proof. unfold same_type. case_decide; [|done]. by intros [= <-]. Qed.

Lemma same_type_no_throw i j w w' : same_type i j w ≠ Throw w'.
Proof. unfold same_type. by case_decide. Qed.

Lemma declared_Ret I w u w1 : declared I w = Ret u w1 → w1 = w.
Proof. unfold declared. case_decide; [|done]. by intros [= <-]. Qed.

Lemma declared_no_throw I w w' : declared I w ≠ Throw w'.
Proof. unfold declared. by case_decide. Qed.

Lemma declare_no_throw x i w w' : declare x i w ≠ Throw w'.
Proof. unfold declare, set_var. by destruct (vars w !! x). Qed.

Lemma swap_no_throw x y w w' : swap x y w ≠ Throw w'.
Proof.
  intros H. apply swap_inv in H as (ix & iy & _ & _ & _ & [=]). done.
Qed.

Lemma delete_bytes_no_throw p hp hp' : delete_bytes p hp ≠ Throw hp'.
Proof.
  unfold delete_bytes. destruct (p =? nullptr); [done|]. by destruct (blocks hp !! p).
Qed.

Lemma destroy_at_no_throw T p hp hp' : destroy_at T p hp ≠ Throw hp'.
Proof.
  unfold destroy_at. destruct T as [c| |T].
  - destruct (load_class c p hp); [apply store_obj_no_throw|done].
  - destruct (load_ptr p hp); [apply store_obj_no_throw|done].
  - destruct (load_ptr p hp); [apply store_obj_no_throw|done].
Qed.

(** The destructor does not throw: the destroy operation of every thunk is
    the destructor call of its type, and delete[] does not throw. *)
Lemma destructor_no_throw i hp hp' : destructor classes i hp ≠ Throw hp'.
Proof.
  unfold destructor. intros [H|(u & hp1 & _ & H)]%bind_Throw.
  - destruct (operator_bool i); [|done].
    destruct (_t i) as [|T]; [done|]. simpl in H. unfold thunk_storage in H.
    destruct (is_copy_constructible classes T); simpl in H;
      by apply destroy_at_no_throw in H.
  - by apply delete_bytes_no_throw in H.
Qed.

Lemma end_of_scope_no_throw x w w' : end_of_scope classes x w ≠ Throw w'.
Proof.
  unfold end_of_scope. intros [H|(i & w1 & _ & H)]%bind_Throw.
  { by apply get_var_no_throw in H. }
  apply bind_Throw in H as [H|(u & w2 & _ & H)]; [|done].
  unfold in_mem in H.
  destruct (destructor classes i (mem w1)) as [a hp|hp|] eqn:E; [done| |done].
  by apply destructor_no_throw in E.
Qed.

Lemma move_ctor_no_throw x other w w' : move_ctor x other w ≠ Throw w'.
Proof.
  unfold move_ctor. intros [H|(i & w1 & _ & H)]%bind_Throw.
  { by apply get_var_no_throw in H. }
  apply bind_Throw in H as [H|(u & w2 & _ & H)].
  - by apply declare_no_throw in H.
  - by apply swap_no_throw in H.
Qed.

(** When [construct] throws, the memory is as it was: the buffer is given
    back and the copy and move operations throw before they write. *)
Lemma construct_Throw I by_copy i hp hp' :
  construct classes I by_copy i hp = Throw hp' → hp' = hp.
Proof.
  unfold construct, operator_bool, fetch_ptr, fetch_thunk.
  destruct (mapM _ I); [|done]. destruct (negb _); [done|].
  destruct (_t i) as [|T]; [done|]. simpl.
  intros [H|(buf & hp1 & Hnew & H)]%bind_Throw.
  { by apply new_bytes_Throw in H as [-> _]. }
  apply bind_Throw in H as [H|(u & hp2 & _ & H)]; [|done].
  unfold unwinding in H.
  destruct (match (if by_copy then _ else _) with Some f => _ | None => _ end hp1)
    as [a hp2|hp2|] eqn:Hop; [done| |done].
  assert (hp2 = hp1) as ->.
  { unfold thunk_storage in Hop.
    destruct (is_copy_constructible classes T), by_copy; simpl in Hop; try done.
    - by apply copy_construct_Throw in Hop as [-> _].
    - by apply move_construct_Throw in Hop. }
  rewrite (delete_fresh_buffer _ _ _ _ Hnew) in H. by injection H as <-.
Qed.

Lemma in_mem_Throw {A} (m : heap → result heap A) w w' :
  (∀ hp hp', m hp = Throw hp' → hp' = hp) → in_mem m w = Throw w' → w' = w.
Proof.
  intros Hm. unfold in_mem. destruct (m (mem w)) as [a hp|hp|] eqn:E; [done| |done].
  apply Hm in E as ->. intros [= <-]. by destruct w.
Qed.

Lemma new_object_Throw (m : heap → result heap interface) x w w' :
  (∀ hp hp', m hp = Throw hp' → hp' = hp) →
  (let* i := in_mem m in declare x i) w = Throw w' → w' = w.
Proof.
  intros Hm [H|(i & w1 & _ & H)]%bind_Throw.
  - by eapply in_mem_Throw.
  - by apply declare_no_throw in H.
Qed.

Lemma copy_ctor_Throw x other w w' : copy_ctor classes x other w = Throw w' → w' = w.
Proof.
  unfold copy_ctor. intros [H|(i & w1 & Hg & H)]%bind_Throw.
  { by apply get_var_no_throw in H. }
  apply get_var_Ret in Hg as [-> _]. eapply new_object_Throw; [|done].
  intros hp hp1. apply construct_Throw.
Qed.

(** The body of the two assignments throws only if the construction of the
    temporary throws. *)
Lemma assign_Throw (ctor : nat → nat → world → result world unit) this other tmp w w' :
  (let* it := get_var this in
   let* io := get_var other in
   let* _ := same_type it io in
   let* _ := ctor tmp other in
   let* _ := swap this tmp in
   end_of_scope classes tmp) w = Throw w' →
  ctor tmp other w = Throw w'.
Proof.
  intros [H|(it & w1 & Hg1 & H)]%bind_Throw; [by apply get_var_no_throw in H|].
  apply get_var_Ret in Hg1 as [-> _].
  apply bind_Throw in H as [H|(io & w1 & Hg2 & H)]; [by apply get_var_no_throw in H|].
  apply get_var_Ret in Hg2 as [-> _].
  apply bind_Throw in H as [H|(u & w1 & Hs & H)]; [by apply same_type_no_throw in H|].
  apply same_type_Ret in Hs as ->.
  apply bind_Throw in H as [H|(u' & w1 & _ & H)]; [done|].
  apply bind_Throw in H as [H|(u'' & w2 & _ & H)]; [by apply swap_no_throw in H|].
  by apply end_of_scope_no_throw in H.
Qed.

Lemma move_assign_no_throw this other w w' : move_assign classes this other w ≠ Throw w'.
Proof.
  unfold move_assign. intros H%assign_Throw. by apply move_ctor_no_throw in H.
Qed.

(** X1: the strong exception guarantee.  When a statement throws (no
    memory for the buffer, or a throwing copy or move constructor of the
    payload, in a constructor or in copy assignment), every interface object
    and the whole memory are as they were before the statement. *)
Theorem throw_leaves_world_unchanged s w w' :
  exec classes s w = Throw w' → w' = w.
Proof.
  destruct s; simpl.
  - intros [H|(u & w1 & _ & H)]%bind_Throw; [by apply declared_no_throw in H|].
    by apply declare_no_throw in H.
  - intros [H|(u & w1 & Hd & H)]%bind_Throw; [by apply declared_no_throw in H|].
    apply declared_Ret in Hd as ->. eapply new_object_Throw; [|done].
    intros hp hp1. apply interface_from_Throw.
  - apply copy_ctor_Throw.
  - by intros H%move_ctor_no_throw.
  - intros [H|(u & w1 & Hd & H)]%bind_Throw; [by apply declared_no_throw in H|].
    apply declared_Ret in Hd as ->.
    apply bind_Throw in H as [H|(i & w1 & Hg & H)]; [by apply get_var_no_throw in H|].
    apply get_var_Ret in Hg as [-> _]. eapply new_object_Throw; [|done].
    intros hp hp1. apply construct_Throw.
  - unfold copy_assign. intros H%assign_Throw. by apply copy_ctor_Throw in H.
  - by intros H%move_assign_no_throw.
  - by intros H%swap_no_throw.
  - intros [H|(z & w1 & _ & H)]%bind_Throw; [|done].
    apply bind_Throw in H as [H|(i & w1 & Hg & H)]; [by apply get_var_no_throw in H|].
    apply get_var_Ret in Hg as [-> _]. eapply in_mem_Throw; [|done].
    intros hp hp1 E. pose proof (method_extends classes name i args hp) as Hm.
    by rewrite E in Hm.
  - by intros H%end_of_scope_no_throw.
Qed.

(** X2: what is declared noexcept does not throw: the default constructor,
    the move constructor, move assignment, swap and the destructor never
    leave by an exception, whatever the objects and the memory. *)
Theorem noexcept_never_throws x y I w w' :
  default_ctor x I w ≠ Throw w' ∧
  move_ctor x y w ≠ Throw w' ∧
  move_assign classes x y w ≠ Throw w' ∧
  swap x y w ≠ Throw w' ∧
  end_of_scope classes x w ≠ Throw w'.
Proof.
  split_and!.
  - apply declare_no_throw.
  - apply move_ctor_no_throw.
  - apply move_assign_no_throw.
  - apply swap_no_throw.
  - apply end_of_scope_no_throw.
Qed.

End Exceptions.

(** ** Ownership of the buffers *)

Section Ownership.

Variable classes : class_id -> class_decl.

Lemma bind_Ret {S A B} (m : S → result S A) (k : A → S → result S B) s b s' :
  bind m k s = Ret b s' → ∃ a s1, m s = Ret a s1 ∧ k a s1 = Ret b s'.
Proof. unfold bind. destruct (m s) as [a s1|s1|]; [|done..]. intros H. by exists a, s1. Qed.

Lemma in_mem_Ret {A} (m : heap → result heap A) w a w1 :
  in_mem m w = Ret a w1 → ∃ hp', m (mem w) = Ret a hp' ∧ w1 = {| mem := hp'; vars := vars w |}.
Proof.
  unfold in_mem. destruct (m (mem w)) as [a' hp'|hp'|]; [|done..].
  intros [= <- <-]. by exists hp'.
Qed.

Lemma declare_Ret x i w u w1 :
  declare x i w = Ret u w1 →
  vars w !! x = None ∧ w1 = {| mem := mem w; vars := <[x := i]> (vars w) |}.
Proof.
  unfold declare, set_var. destruct (vars w !! x); [done|]. by intros [= <-].
Qed.

(** Giving back a buffer that has just been allocated and filled gives
    back the memory as it was before the allocation. *)
Lemma released_fresh_buffer r buf n o hp :
  _ptr r = buf → buf ≠ nullptr → blocks hp !! buf = None → n ≤ avail hp →
  released r {| blocks := <[buf := {| blk_size := n; blk_obj := o |}]> (blocks hp);
                avail := avail hp - n |} = hp.
Proof.
  intros <- Hp Hfree Hle. unfold released. simpl.
  destruct (N.eqb_spec (_ptr r) nullptr); [done|].
  rewrite lookup_insert_eq. simpl. destruct hp as [bl av]; simpl in *.
  f_equal; [|lia]. rewrite delete_insert_eq. by apply delete_id.
Qed.

(** X3: constructing an interface object from a value and destroying it
    right away gives back the world as it was: the destructor releases the
    whole buffer the constructor allocated, and nothing else. *)
Theorem wrap_then_destroy_restores x I U rvalue v w w1 :
  value_ctor classes x I U rvalue v w = Ret tt w1 →
  end_of_scope classes x w1 = Ret tt w.
Proof.
  unfold value_ctor. intros (r & w0 & Hm & Hd)%bind_Ret.
  apply in_mem_Ret in Hm as (hp' & Hfrom & ->).
  apply declare_Ret in Hd as [Hx ->]. simpl in *.
  destruct (interface_from_sound classes _ _ _ _ _ _ _ Hfrom) as (_ & Hsr & _).
  apply interface_from_Ret in Hfrom as (_ & _ & _ & buf & hp1 & Hnew & Hem & ->).
  apply new_bytes_Ret in Hnew as (Hbuf & Hfree & Hle & ->).
  apply emplace_Ret in Hem as (o & Hst & _).
  apply store_obj_Ret in Hst as (b & Hb & ->). simpl in Hb.
  rewrite lookup_insert_eq in Hb. injection Hb as <-. simpl in *.
  erewrite end_of_scope_Ret; [|simpl; apply lookup_insert_eq|done]. simpl.
  rewrite insert_insert_eq.
  rewrite (released_fresh_buffer _ buf (sizeof classes U) o (mem w)) by done.
  rewrite delete_insert_eq, delete_id by done. by destruct w.
Qed.

(** X4: in a running program, copying an interface object and destroying
    the copy right away gives back the world as it was: the copy has a buffer
    of its own, and destroying it touches neither the source nor its
    payload. *)
Theorem copy_then_destroy_restores x y w w1 :
  reachable classes w →
  copy_ctor classes y x w = Ret tt w1 →
  end_of_scope classes y w1 = Ret tt w.
Proof.
  intros Hr Hcopy.
  destruct (vars w !! x) as [i|] eqn:Hx; cycle 1.
  { unfold copy_ctor, bind, get_var in Hcopy. by rewrite Hx in Hcopy. }
  destruct (vars w !! y) as [j|] eqn:Hy.
  { unfold copy_ctor, bind, get_var, in_mem, declare in Hcopy. rewrite Hx in Hcopy.
    destruct (construct classes (iface i) true i (mem w)); [|done..].
    simpl in Hcopy. by rewrite Hy in Hcopy. }
  rewrite (copy_ctor_result classes y x w i Hx Hy) in Hcopy.
  destruct (reachable_sound classes w Hr) as [Hs _].
  destruct (Hs x i Hx) as (Hsi & Hwt & _).
  pose proof (construct_sound classes (iface i) true i (mem w) Hsi) as Hsound.
  pose proof (construct_copy_spec classes (iface i) i (mem w) Hsi Hwt (λ _ H, H)) as Hc.
  destruct (construct classes (iface i) true i (mem w)) as [r hp'|hp'|]; [|done..].
  injection Hcopy as <-. destruct Hsound as (_ & Hsr & _).
  erewrite end_of_scope_Ret; [|simpl; apply lookup_insert_eq|done]. simpl.
  rewrite delete_insert_eq, delete_id by done.
  destruct Hc as (vt & _ & Hc). destruct (_t i) as [|T].
  - destruct Hc as [-> ->]. rewrite released_default. by destruct w.
  - destruct Hc as (buf & o & -> & Hbuf & Hfree & Hle & -> & _).
    rewrite (released_fresh_buffer _ buf (sizeof classes T) o (mem w)) by done.
    by destruct w.
Qed.

(** X5: single ownership.  In a running program every non-empty interface
    object has a thunk of a copy-constructible type and its data pointer
    leads to allocated storage holding an object of that type, and no two
    objects have the same data pointer: every buffer is destroyed and freed
    by exactly one object. *)
Theorem reachable_objects_own_their_buffers w :
  reachable classes w →
  (∀ x i, vars w !! x = Some i → _ptr i ≠ nullptr →
     ∃ T b, _t i = thunk_at T ∧ is_copy_constructible classes T = true ∧
            blocks (mem w) !! _ptr i = Some b ∧ holds T (blk_obj b)) ∧
  (∀ x y i j, x ≠ y → vars w !! x = Some i → vars w !! y = Some j →
     _ptr i ≠ nullptr → _ptr i ≠ _ptr j).
Proof.
  intros Hr. destruct (reachable_sound classes w Hr) as [Hs Hex]. split; [|done].
  intros x i Hx Hp. destruct (Hs x i Hx) as (Hsi & _). unfold sound in Hsi.
  destruct (_t i) as [|T]; [done|].
  destruct Hsi as (_ & Hc & b & Hb & Hh). by exists T, b.
Qed.

(** X6: the destructor in a running program.  The end of the lifetime of
    an object always returns; the object is gone, its buffer is no more
    allocated, the bytes available do not shrink, and every other block of
    memory and every other object is as before; for an empty object the
    memory does not change at all. *)
Theorem destructor_releases_own_buffer x i w :
  reachable classes w → vars w !! x = Some i →
  ∃ w', end_of_scope classes x w = Ret tt w' ∧
        vars w' = delete x (vars w) ∧
        (_ptr i ≠ nullptr → blocks (mem w') !! _ptr i = None) ∧
        (∀ p, p ≠ _ptr i → blocks (mem w') !! p = blocks (mem w) !! p) ∧
        avail (mem w) ≤ avail (mem w') ∧
        (_ptr i = nullptr → mem w' = mem w) ∧
        (∀ y j, vars w' !! y = Some j → _ptr j ≠ nullptr →
           blocks (mem w') !! _ptr j = blocks (mem w) !! _ptr j).
Proof.
  intros Hr Hx. destruct (reachable_sound classes w Hr) as [Hs Hex].
  destruct (Hs x i Hx) as (Hsi & _).
  eexists. split; [by apply end_of_scope_Ret|]. simpl. split_and!; [done| | | | |].
  - intros Hp. unfold released. destruct (N.eqb_spec (_ptr i) nullptr); [done|].
    unfold sound in Hsi. destruct (_t i) as [|T]; [done|].
    destruct Hsi as (_ & _ & b & Hb & _). rewrite Hb. simpl. apply lookup_delete_eq.
  - intros p Hp. by apply released_lookup_ne.
  - unfold released. destruct (_ptr i =? nullptr); [done|].
    destruct (blocks (mem w) !! _ptr i); simpl; lia.
  - intros Hp. unfold released. by rewrite Hp.
  - intros y j Hy Hp. rewrite lookup_delete in Hy. case_decide; [done|].
    apply released_lookup_ne. by apply (Hex y x).
Qed.

End Ownership.

(** ** Calls, copies, equality and downcasts in a running program *)

Section Behaviour.

Variable classes : class_id -> class_decl.

Lemma invoke_inv c name a args hp r hp' :
  invoke classes c name a args hp = Ret r hp' →
  ∃ f s, cls_methods (classes c) name = Some f ∧ load_class c a hp = Some s ∧
         r = (f s args).1 ∧
         store_obj a (OClass c (f s args).2) hp = Ret tt hp'.
Proof.
  unfold invoke. destruct (cls_methods (classes c) name) as [f|]; [|done].
  destruct (load_class c a hp) as [s|]; [|done].
  intros ([] & hp1 & Hst & Hret)%bind_Ret. injection Hret as <- <-. by exists f, s.
Qed.

(** The vtable entries of an object in value mode are trampolines of a
    class. *)
Lemma value_mode_entry i name f :
  invariant i → dispatches i → value_mode i → get_ name i = Some f →
  ∃ c, _t i = thunk_at (TClass c) ∧ f = erasure_fn name (TClass c).
Proof.
  intros Hinv [Hn|(U & Ht & Hv)] [Hp Hval] Hget.
  { by apply Hinv in Hn. }
  rewrite Ht, is_pointer_thunk_get_thunk in Hval.
  destruct U as [c| |T]; try done. exists c. split; [done|].
  unfold get_ in Hget. destruct (position name (iface i)) as [k|] eqn:Hk; [|done].
  apply position_Some in Hk. rewrite Hv, list_lookup_fmap, Hk in Hget.
  by injection Hget as <-.
Qed.

(** X7: value independence.  In a running program a member call on an
    object in value mode returns what the member function of the payload's
    class returns on the payload, and writes to the buffer of that object
    only: no interface object changes, the bytes available and every other
    block of memory are as before, so the payload of every other object, a
    copy of this one included, is untouched. *)
Theorem value_mode_call_touches_own_buffer_only x i name args w r w' :
  reachable classes w → vars w !! x = Some i → value_mode i →
  call classes x name args w = Ret r w' →
  vars w' = vars w ∧
  avail (mem w') = avail (mem w) ∧
  (∀ p, p ≠ _ptr i → blocks (mem w') !! p = blocks (mem w) !! p) ∧
  (∀ y j, y ≠ x → vars w !! y = Some j → _ptr j ≠ nullptr →
     blocks (mem w') !! _ptr j = blocks (mem w) !! _ptr j) ∧
  (∃ c f s, _t i = thunk_at (TClass c) ∧ cls_methods (classes c) name = Some f ∧
            load_class c (_ptr i) (mem w) = Some s ∧ r = (f s args).1 ∧
            load_class c (_ptr i) (mem w') = Some (f s args).2).
Proof.
  intros Hr Hx Hval. rewrite (call_of_var classes x name args w i Hx).
  intros (hp' & Hm & ->)%in_mem_Ret. simpl.
  destruct (reachable_invariant classes w Hr x i Hx) as (Hinv & _ & Hd).
  destruct (reachable_sound classes w Hr) as [_ Hex].
  unfold method in Hm. destruct (get_ name i) as [f|] eqn:Hget; [|done].
  destruct (value_mode_entry i name f Hinv Hd Hval Hget) as (c & Ht & ->).
  simpl in Hm. unfold factory_call, as_object in Hm. simpl in Hm.
  apply invoke_inv in Hm as (f & s & Hf & Hs & -> & Hst).
  pose proof (store_obj_lookup _ _ _ _ Hst) as [n Hn].
  apply store_obj_Ret in Hst as (b & Hb & ->). simpl in *.
  assert (Hframe : ∀ p, p ≠ _ptr i →
            <[_ptr i := {| blk_size := blk_size b; blk_obj := OClass c (f s args).2 |}]>
              (blocks (mem w)) !! p = blocks (mem w) !! p).
  { intros p Hp. by rewrite lookup_insert_ne. }
  split_and!; [done..| |].
  - intros y j Hy Hj Hp. apply Hframe. by apply (Hex y x).
  - exists c, f, s. split_and!; [done..|]. apply load_class_Some. eauto.
Qed.

(** X8: a copy is equal to its source exactly when they share the object
    they refer to.  In a running program, the copy of an object compares
    equal to the object (in both orders) iff the object is empty or in
    reference mode; the copy of an object in value mode is different from
    it. *)
Theorem copy_equals_source_iff_shared x y i w w' :
  reachable classes w → vars w !! x = Some i →
  copy_ctor classes y x w = Ret tt w' →
  ∃ r, vars w' !! y = Some r ∧ vars w' !! x = Some i ∧
       operator_eq i r (mem w') =
         Some (negb (operator_bool i) || is_pointer_thunk (_t i)) ∧
       operator_eq r i (mem w') =
         Some (negb (operator_bool i) || is_pointer_thunk (_t i)).
Proof.
  intros Hr Hx Hcopy.
  destruct (vars w !! y) as [j|] eqn:Hy.
  { unfold copy_ctor, bind, get_var, in_mem, declare in Hcopy. rewrite Hx in Hcopy.
    destruct (construct classes (iface i) true i (mem w)); [|done..].
    simpl in Hcopy. by rewrite Hy in Hcopy. }
  assert (y ≠ x) as Hne by congruence.
  rewrite (copy_ctor_result classes y x w i Hx Hy) in Hcopy.
  destruct (reachable_sound classes w Hr) as [Hs _].
  destruct (Hs x i Hx) as (Hsi & Hwt & _).
  pose proof (construct_copy_spec classes (iface i) i (mem w) Hsi Hwt (λ _ H, H)) as Hc.
  destruct (construct classes (iface i) true i (mem w)) as [r hp'|hp'|]; [|done..].
  injection Hcopy as <-. exists r. simpl.
  rewrite lookup_insert_eq, lookup_insert_ne by done.
  destruct Hc as (vt & _ & Hc). unfold sound in Hsi. unfold operator_bool.
  destruct (_t i) as [|T] eqn:Ht.
  { destruct Hc as [-> ->]. unfold operator_eq. rewrite Hsi. simpl. done. }
  destruct Hsi as (Hp & _ & b & Hb & Hh).
  destruct Hc as (buf & o & -> & Hbuf & Hfree & _ & -> & Hcp).
  assert (_ptr i ≠ buf) as Hpb by congruence.
  apply N.eqb_neq in Hp as Hp'. apply N.eqb_neq in Hbuf as Hbuf'.
  unfold operator_eq. simpl. rewrite Ht, Hp', Hbuf'. simpl.
  destruct (is_pointer_thunk (thunk_at T)) eqn:Hpt; simpl; [|done].
  apply is_pointer_thunk_true in Hpt. injection Hpt as ->.
  destruct Hcp as (a & Ha & ->).
  rewrite load_insert_other_ptr by done. rewrite Ha.
  assert (load_ptr buf
            {| blocks := <[buf := {| blk_size := sizeof classes TVoidPtr;
                                     blk_obj := OPtr a |}]> (blocks (mem w));
               avail := avail (mem w) - sizeof classes TVoidPtr |} = Some a) as ->.
  { unfold load_ptr; simpl. by rewrite lookup_insert_eq. }
  by rewrite N.eqb_refl.
Qed.

(** X9: operator== in a running program is symmetric and transitive
    (though not reflexive): comparing in the other order gives the same
    answer, and two objects equal to a third are equal. *)
Theorem operator_eq_symmetric_transitive x y z i j k w :
  reachable classes w →
  vars w !! x = Some i → vars w !! y = Some j → vars w !! z = Some k →
  operator_eq i j (mem w) = operator_eq j i (mem w) ∧
  (operator_eq i j (mem w) = Some true → operator_eq j k (mem w) = Some true →
   operator_eq i k (mem w) = Some true).
Proof.
  intros Hr Hx Hy Hz.
  destruct (reachable_sound classes w Hr) as [Hs _].
  destruct (Hs x i Hx) as ([Hii Hpi]%sound_invariant & _).
  destruct (Hs y j Hy) as ([Hij Hpj]%sound_invariant & _).
  destruct (Hs z k Hz) as ([Hik Hpk]%sound_invariant & _).
  destruct (operator_eq_cases (mem w) i j Hii Hpi Hpj) as (b1 & E1 & _ & I1 & _).
  destruct (operator_eq_cases (mem w) j i Hij Hpj Hpi) as (b2 & E2 & _ & I2 & _).
  destruct (operator_eq_cases (mem w) j k Hij Hpj Hpk) as (b3 & E3 & _ & I3 & _).
  destruct (operator_eq_cases (mem w) i k Hii Hpi Hpk) as (b4 & E4 & _ & I4 & _).
  rewrite E1, E2, E3, E4. split.
  - f_equal. destruct b1, b2; try done.
    + destruct I1 as [I1 _]. destruct I2 as [_ I2]. symmetry. apply I2.
      destruct (I1 eq_refl) as [[? ?]|(? & ? & ?)]; [by left|by right].
    + destruct I1 as [_ I1]. destruct I2 as [I2 _]. apply I1.
      destruct (I2 eq_refl) as [[? ?]|(? & ? & ?)]; [by left|by right].
  - intros [= ->] [= ->]. f_equal. apply I4.
    destruct I1 as [I1 _], I3 as [I3 _].
    destruct (I1 eq_refl) as [[Hei Hej]|(Hri & Hrj & Hl1)],
             (I3 eq_refl) as [[Hej' Hek]|(Hrj' & Hrk & Hl3)].
    + by left.
    + apply Hij in Hej. unfold reference_mode in Hrj'. by rewrite Hej in Hrj'.
    + apply Hij in Hej'. unfold reference_mode in Hrj. by rewrite Hej' in Hrj.
    + right. split_and!; [done..|]. congruence.
Qed.

(** X10: a successful downcast to a class is safe.  In a running program,
    when target<T> for a class T returns a non-null pointer, it is the data
    pointer of the object and the storage behind it holds an object of class
    T; on an empty object target returns null for every type. *)
Theorem target_class_is_safe x i c w :
  reachable classes w → vars w !! x = Some i →
  target (TClass c) i ≠ nullptr →
  target (TClass c) i = _ptr i ∧
  _t i = get_thunk (TClass c) ∧
  (∃ s, load_class c (target (TClass c) i) (mem w) = Some s) ∧
  (∀ j T, _ptr j = nullptr → target T j = nullptr).
Proof.
  intros Hr Hx Ht.
  destruct (reachable_sound classes w Hr) as [Hs _].
  destruct (Hs x i Hx) as (Hsi & _).
  unfold target in *. destruct (decide (_t i = get_thunk (TClass c))) as [E|]; [|done].
  split_and!; [done..| |].
  - unfold sound in Hsi. rewrite E in Hsi. simpl in Hsi.
    destruct Hsi as (_ & _ & [n o] & Hb & Hh). destruct o as [c' s| |]; try done.
    simpl in Hh. subst c'. exists s. apply load_class_Some. eauto.
  - intros j T Hj. by destruct (decide (_t j = get_thunk T)).
Qed.

End Behaviour.

(** ** Invariants of the single objects *)

Section Pointwise.

Variable classes : class_id -> class_decl.

(** A property of interface objects that the default members have, that
    the constructor from a value establishes and that [construct] passes
    on from its source. *)
Variable φ : interface → Prop.
Hypothesis φ_default : ∀ I, φ (default_interface I).
Hypothesis φ_from : ∀ I U rvalue v hp r hp',
  interface_from classes I U rvalue v hp = Ret r hp' → φ r.
Hypothesis φ_construct : ∀ I by_copy i hp r hp',
  φ i → construct classes I by_copy i hp = Ret r hp' → φ r.

Lemma passes_declared I : passes φ (declared I).
Proof using Type. intros w Hw. unfold declared. by case_decide. Qed.

Lemma passes_declare x i : φ i → passes φ (declare x i).
Proof using Type.
  intros Hi w Hw. unfold declare, set_var. destruct (vars w !! x); [done|].
  intros y j. simpl. rewrite lookup_insert. case_decide; [by intros [= <-]|]. apply Hw.
Qed.

Lemma passes_swap x y : passes φ (swap x y).
Proof using Type.
  intros w Hw. destruct (swap x y w) as [[] w'|w'|] eqn:Hsw; [| |done].
  - apply swap_inv in Hsw as (ix & iy & Hx & Hy & _ & [= ->]); [|done].
    intros z k. simpl. rewrite !lookup_insert.
    repeat case_decide; try (intros [= <-]); by eauto using Hw.
  - by apply swap_no_throw in Hsw.
Qed.

Lemma passes_new_object (m : heap → result heap interface) x :
  (∀ hp r hp', m hp = Ret r hp' → φ r) →
  passes φ (let* i := in_mem m in declare x i).
Proof using Type.
  intros Hm w Hw. unfold bind, in_mem.
  destruct (m (mem w)) as [r hp'|hp'|] eqn:E; [|done..].
  apply (passes_declare x r); [by eapply Hm|done].
Qed.

Lemma passes_construct x (I : interface → list string) by_copy other :
  passes φ (let* io := get_var other in
          let* i := in_mem (construct classes (I io) by_copy io) in declare x i).
Proof using φ_construct.
  eapply triple_bind; [apply triple_get_var_any|]. intros io w [Hw Ho].
  apply passes_new_object; [|done]. intros hp r hp'. apply φ_construct. by eapply Hw.
Qed.

Lemma passes_move_ctor x other : passes φ (move_ctor x other).
Proof using φ_default.
  eapply triple_bind; [apply triple_get_var_any|]. intros io.
  apply (triple_pre _ (all_objects φ)); [by intros ? [? _]|].
  eapply triple_bind; [by apply passes_declare|]. intros ?. apply passes_swap.
Qed.

Lemma passes_end_of_scope x : passes φ (end_of_scope classes x).
Proof using Type.
  intros w Hw. destruct (end_of_scope classes x w) as [[] w'|w'|] eqn:E; [| |done].
  - unfold end_of_scope in E.
    apply bind_Ret in E as (i & w1 & [-> _]%get_var_Ret & E).
    apply bind_Ret in E as (u & w2 & (hp' & _ & ->)%in_mem_Ret & E).
    injection E as <-. intros y j. simpl. rewrite lookup_delete.
    case_decide; [done|]. apply Hw.
  - by apply end_of_scope_no_throw in E.
Qed.

Lemma exec_passes s : passes φ (exec classes s).
Proof using All.
  destruct s; simpl.
  - eapply triple_bind; [apply passes_declared|]. intros ?.
    apply passes_declare, φ_default.
  - eapply triple_bind; [apply passes_declared|]. intros ?.
    apply passes_new_object. intros hp r hp'. apply φ_from.
  - apply (passes_construct x iface).
  - apply passes_move_ctor.
  - eapply triple_bind; [apply passes_declared|]. intros ?.
    apply (passes_construct x (λ _, I)).
  - apply (triple_assign classes _ (copy_ctor classes));
      [|apply passes_swap|apply passes_end_of_scope].
    intros a b. apply (passes_construct a iface).
  - apply (triple_assign classes _ move_ctor);
      [apply passes_move_ctor|apply passes_swap|apply passes_end_of_scope].
  - apply passes_swap.
  - intros w Hw. destruct (bind _ _ w) as [u w'|w'|] eqn:E; [| |done].
    + apply bind_Ret in E as (z & w1 & E & [= <- <-]).
      unfold call in E. apply bind_Ret in E as (i & w2 & [-> _]%get_var_Ret & E).
      apply in_mem_Ret in E as (hp' & _ & ->). intros y j. exact (Hw y j).
    + apply bind_Throw in E as [E|(z & w1 & _ & E)]; [|done].
      unfold call in E.
      apply bind_Throw in E as [E|(i & w2 & [-> _]%get_var_Ret & E)];
        [by apply get_var_no_throw in E|].
      unfold in_mem in E.
      destruct (method classes name i args (mem w)); [done| |done].
      injection E as <-. intros y j. exact (Hw y j).
  - apply passes_end_of_scope.
Qed.

(** Such a property holds of every object of a running program. *)
Lemma reachable_pointwise w x i :
  reachable classes w → vars w !! x = Some i → φ i.
Proof using All.
  intros Hr. revert x i. change (all_objects φ w).
  induction Hr as [hp|s w w' _ IH Hs|s w w' _ IH Hs].
  - intros x i. simpl. by rewrite lookup_empty.
  - pose proof (exec_passes s w IH) as H. by rewrite Hs in H.
  - pose proof (exec_passes s w IH) as H. by rewrite Hs in H.
Qed.

End Pointwise.

(** ** Empty objects, conversions by move, swap and assignment *)

Section Lifecycle.

Variable classes : class_id -> class_decl.

(** An object of a running program with a null thunk pointer has the
    vtable of the default member initializer: null function pointers. *)
Lemma reachable_null_vtable w x i :
  reachable classes w → vars w !! x = Some i → _t i = thunk_null →
  _vtable i = replicate (length (iface i)) fn_null.
Proof.
  apply (reachable_pointwise classes
           (λ i, _t i = thunk_null → _vtable i = replicate (length (iface i)) fn_null)).
  - done.
  - intros I U rvalue v hp r hp' (_ & _ & _ & buf & hp1 & _ & _ & ->)%interface_from_Ret.
    simpl. by intros ?%get_thunk_not_null.
  - intros I by_copy i' hp r hp' _
      (vt & _ & [(_ & -> & _)|(_ & th & f & buf & hp1 & Hth & _ & _ & _ & ->)])%construct_Ret.
    + done.
    + simpl. intros Ht. by rewrite Ht in Hth.
Qed.

(** X11: a member call on an empty interface object of a running program
    has undefined behaviour, whatever the method and the arguments: the
    vtable entry it goes through is a null function pointer. *)
Theorem call_on_empty_is_undefined x i name args w :
  reachable classes w → vars w !! x = Some i → empty i →
  call classes x name args w = Undefined.
Proof.
  intros Hr Hx He.
  destruct (reachable_invariant classes w Hr x i Hx) as (Hinv & _).
  pose proof (reachable_null_vtable w x i Hr Hx (proj1 Hinv He)) as Hvt.
  rewrite (call_of_var classes x name args w i Hx). unfold in_mem, method, get_.
  destruct (position name (iface i)) as [k|] eqn:Hk; [|done].
  apply position_Some, lookup_lt_Some in Hk.
  by rewrite Hvt, lookup_replicate_2.
Qed.

(** X12: the converting constructor from an rvalue moves the payload but
    does not empty its source.  In a running program, after converting by
    move from an object that holds a class object, the source has the
    members it had and still tests true, its payload is what the move
    constructor of the class left behind, and the new object has a buffer of
    its own with the moved-to payload. *)
Theorem converting_move_keeps_source_non_empty x y i I c w w' :
  reachable classes w → vars w !! x = Some i → _t i = thunk_at (TClass c) →
  converting_ctor classes y I false x w = Ret tt w' →
  vars w' !! x = Some i ∧ operator_bool i = true ∧
  ∃ r s s' rest,
    vars w' !! y = Some r ∧ _t r = _t i ∧ _ptr r ≠ nullptr ∧ _ptr r ≠ _ptr i ∧
    load_class c (_ptr i) (mem w) = Some s ∧
    cls_move (classes c) s = Some (s', rest) ∧
    load_class c (_ptr r) (mem w') = Some s' ∧
    load_class c (_ptr i) (mem w') = Some rest.
Proof.
  intros Hr Hx Ht. unfold converting_ctor.
  intros (i' & w1 & [-> Hx']%get_var_Ret & H)%bind_Ret.
  assert (i' = i) as -> by congruence.
  apply bind_Ret in H as (r & w1 & (hp' & Hc & ->)%in_mem_Ret & [Hy ->]%declare_Ret).
  simpl in *. assert (x ≠ y) as Hne by congruence.
  destruct (reachable_sound classes w Hr) as [Hs _].
  destruct (Hs x i Hx) as (Hsi & _). unfold sound in Hsi. rewrite Ht in Hsi.
  destruct Hsi as (Hp & Hcc & b & Hb & Hh).
  apply construct_Ret in Hc
    as (vt & _ & [(? & _)|(_ & th & f & buf & hp1 & Hth & Hf & Hnew & Hop & ->)]);
    [done|].
  rewrite Ht in Hth. injection Hth as <-.
  unfold thunk_storage in Hf. simpl in Hcc. simpl in Hf. rewrite Hcc in Hf.
  injection Hf as <-.
  apply new_bytes_Ret in Hnew as (Hbuf & Hfree & _ & ->).
  assert (_ptr i ≠ buf) as Hpb by congruence.
  unfold move_construct in Hop. rewrite load_insert_other_class in Hop by done.
  destruct (load_class c (_ptr i) (mem w)) as [s|] eqn:Hl; [|done].
  destruct (cls_move (classes c) s) as [[s' rest]|] eqn:Hmv; [|done].
  apply bind_Ret in Hop as ([] & hp2 & Hst1 & Hst2).
  apply store_obj_Ret in Hst1 as (b1 & Hb1 & ->).
  apply store_obj_Ret in Hst2 as (b2 & Hb2 & ->). simpl in *.
  split_and!.
  - by rewrite lookup_insert_ne.
  - unfold operator_bool. by apply N.eqb_neq in Hp as ->.
  - exists {| iface := I; _ptr := buf; _t := _t i; _vtable := vt |}, s, s', rest.
    rewrite lookup_insert_eq. simpl. split_and!; [done..| |].
    + apply load_class_Some. simpl. rewrite lookup_insert_eq. eauto.
    + apply load_class_Some. simpl. rewrite lookup_insert_ne by done.
      rewrite lookup_insert_eq. eauto.
Qed.

Lemma position_None name (I : list string) : name ∉ I → position name I = None.
Proof.
  induction I as [|n I IH]; [done|]. intros Hn. simpl.
  rewrite decide_False by (intros ->; apply Hn, list_elem_of_here).
  rewrite IH; [done|]. intros Hin. apply Hn. by apply list_elem_of_further.
Qed.

(** X13: widening is rejected.  Converting from an object whose interface
    class lacks a method of the target class is ill-formed (there is no
    get_METHOD_NAME for the source), by copy and by move, and also when the
    source is empty. *)
Theorem widening_conversion_is_rejected x y i I by_copy name w :
  vars w !! x = Some i → name ∈ I → name ∉ iface i →
  converting_ctor classes y I by_copy x w = Undefined.
Proof.
  intros Hx Hin Hout. unfold converting_ctor, bind, get_var, in_mem. rewrite Hx.
  unfold construct.
  assert (mapM (λ name, get_ name i) I = None) as ->; [|done].
  apply mapM_None_2, Exists_exists. exists name. split; [done|].
  unfold get_. by rewrite position_None.
Qed.

(** X14: swap is its own inverse and does not depend on the order of its
    arguments: swapping the same two objects again gives back the world as
    it was, and swap(y, x) does what swap(x, y) does. *)
Theorem swap_twice_restores x y w w1 :
  swap x y w = Ret tt w1 →
  swap x y w1 = Ret tt w ∧ swap y x w = Ret tt w1.
Proof.
  intros Hsw. apply swap_inv in Hsw as (ix & iy & Hx & Hy & Hty & [= ->]); [|done].
  split.
  - destruct (decide (x = y)) as [->|Hne].
    + assert (ix = iy) as -> by congruence.
      erewrite (swap_Ret y y _ iy iy); simpl;
        [|by rewrite lookup_insert_eq..|done].
      rewrite !insert_insert_eq, insert_id by done. by destruct w.
    + erewrite (swap_Ret x y _ iy ix); simpl; cycle 1.
      { rewrite lookup_insert_ne by done. apply lookup_insert_eq. }
      { apply lookup_insert_eq. }
      { done. }
      destruct w as [hp vs]. simpl in *. f_equal. f_equal.
      apply map_eq. intros k. rewrite !lookup_insert.
      repeat case_decide; subst; done.
  - rewrite (swap_Ret y x w iy ix Hy Hx (eq_sym Hty)). do 2 f_equal.
    apply map_eq. intros k. rewrite !lookup_insert.
    repeat case_decide; subst; try done. congruence.
Qed.

(** X15: self move assignment is harmless.  In a running program
    x = std::move(x) returns and leaves every object and the whole memory
    as they were. *)
Theorem self_move_assign_is_identity x i w :
  reachable classes w → vars w !! x = Some i →
  move_assign classes x x w = Ret tt w.
Proof.
  intros Hr Hx. destruct (reachable_sound classes w Hr) as [Hs _].
  destruct (Hs x i Hx) as (Hsi & _).
  rewrite (move_assign_spec classes x x w i i Hx Hx eq_refl Hsi).
  rewrite decide_True by done.
  rewrite insert_insert_eq, insert_id by done. by destruct w.
Qed.

(** X16: assignment does not leak.  In a running program, when an
    assignment to a non-empty object returns (copy assignment from any
    object, move assignment from another object), the buffer the left side
    had is no more allocated. *)
Theorem assignment_frees_old_buffer this other it io w :
  reachable classes w →
  vars w !! this = Some it → vars w !! other = Some io → iface it = iface io →
  _ptr it ≠ nullptr →
  (∀ w', copy_assign classes this other w = Ret tt w' →
         blocks (mem w') !! _ptr it = None) ∧
  (this ≠ other →
   ∀ w', move_assign classes this other w = Ret tt w' →
         blocks (mem w') !! _ptr it = None).
Proof.
  intros Hr Hthis Hother Hty Hp.
  destruct (reachable_sound classes w Hr) as [Hs _].
  destruct (Hs this it Hthis) as (Hsit & _).
  destruct (Hs other io Hother) as (Hsio & Hwt & Hnd).
  assert (Hrel : ∀ hp, sound classes hp it → blocks (released it hp) !! _ptr it = None).
  { intros hp Hsh. unfold released. destruct (N.eqb_spec (_ptr it) nullptr); [done|].
    unfold sound in Hsh. destruct (_t it) as [|T]; [done|].
    destruct Hsh as (_ & _ & b & -> & _). simpl. apply lookup_delete_eq. }
  split.
  - intros w' Hca.
    pose proof (copy_assign_spec classes this other w it io
                  Hthis Hother Hty Hnd Hwt Hsit Hsio) as H.
    rewrite Hca in H. destruct H as (r & hp1 & Hc & -> & _). simpl.
    apply Hrel.
    pose proof (construct_sound classes (iface io) true io (mem w) Hsio) as Hcs.
    rewrite Hc in Hcs. destruct Hcs as (Hext & _). by eapply sound_extends.
  - intros Hne w'.
    rewrite (move_assign_spec classes this other w it io Hthis Hother Hty Hsit).
    intros [= <-]. simpl. rewrite decide_False by done. by apply Hrel.
Qed.

End Lifecycle.

(** ** Calls through a reference *)

Section References.

Variable classes : class_id -> class_decl.

(** The vtable entries of an object in reference mode are trampolines of a
    pointer type. *)
Lemma reference_mode_entry i name f :
  dispatches i → reference_mode i → get_ name i = Some f →
  ∃ U, is_pointer_v U = true ∧ f = erasure_fn name U.
Proof.
  unfold reference_mode. intros [Hn|(U & Ht & Hv)] Href Hget.
  { by rewrite Hn in Href. }
  rewrite Ht, is_pointer_thunk_get_thunk in Href. exists U. split; [done|].
  unfold get_ in Hget. destruct (position name (iface i)) as [k|] eqn:Hk; [|done].
  apply position_Some in Hk. rewrite Hv, list_lookup_fmap, Hk in Hget.
  by injection Hget as <-.
Qed.

(** X17: a call through a reference goes to the object outside.  In a
    running program a member call on an object in reference mode that
    returns has run the member function on the object the stored pointer
    leads to, which is not the buffer of the interface object, and has
    written there only: no interface object changes, the bytes available and
    every other block of memory are as before, and every object in reference
    mode still holds the pointer it held, so that all references to the same
    object see the change. *)
Theorem reference_call_writes_pointee_only x i name args w r w' :
  reachable classes w → vars w !! x = Some i → reference_mode i →
  call classes x name args w = Ret r w' →
  vars w' = vars w ∧ avail (mem w') = avail (mem w) ∧
  ∃ a c f s,
    load_ptr (_ptr i) (mem w) = Some a ∧ a ≠ _ptr i ∧
    cls_methods (classes c) name = Some f ∧
    load_class c a (mem w) = Some s ∧ r = (f s args).1 ∧
    load_class c a (mem w') = Some (f s args).2 ∧
    (∀ p, p ≠ a → blocks (mem w') !! p = blocks (mem w) !! p) ∧
    (∀ y j, vars w !! y = Some j → reference_mode j →
       load_ptr (_ptr j) (mem w') = load_ptr (_ptr j) (mem w)).
Proof.
  intros Hr Hx Href. rewrite (call_of_var classes x name args w i Hx).
  intros (hp' & Hm & ->)%in_mem_Ret. simpl.
  destruct (reachable_invariant classes w Hr x i Hx) as (_ & _ & Hd).
  destruct (reachable_sound classes w Hr) as [Hs _].
  unfold method in Hm. destruct (get_ name i) as [g|] eqn:Hget; [|done].
  destruct (reference_mode_entry i name g Hd Href Hget) as (U & HU & ->).
  simpl in Hm. unfold factory_call, as_object in Hm. rewrite HU in Hm.
  destruct (object_class U) as [c|] eqn:Hc; [|done].
  destruct (load_ptr (_ptr i) (mem w)) as [a|] eqn:Ha; [|done].
  apply invoke_inv in Hm as (f & s & Hf & Hl & -> & Hst).
  pose proof (store_obj_lookup _ _ _ _ Hst) as [n Hn].
  apply store_obj_Ret in Hst as (b & Hb & ->). simpl in *.
  apply load_class_Some in Hl as [m Hl].
  assert (Hrefs : ∀ p q, load_ptr p (mem w) = Some q → p ≠ a).
  { intros p q [k Hk]%load_ptr_Some ->. congruence. }
  split_and!; [done..|].
  exists a, c, f, s. split_and!; try done.
  - intros ->. by eapply Hrefs.
  - apply load_class_Some. eauto.
  - apply load_class_Some. eauto.
  - intros p Hp. by rewrite lookup_insert_ne.
  - intros y j Hy Hj. destruct (Hs y j Hy) as (Hsj & _).
    apply is_pointer_thunk_true in Hj. unfold sound in Hsj. rewrite Hj in Hsj.
    destruct Hsj as (_ & _ & bj & Hbj & Hh).
    destruct bj as [nj [| q |]]; try done.
    assert (_ptr j ≠ a) as Hne by (intros Heq; congruence).
    unfold load_ptr. simpl. by rewrite lookup_insert_ne.
Qed.

End References.

(** ** The theorems above at the demo program *)

Lemma demo_fragile_world_reachable : reachable Demo.classes Demo.fragile_world.
Proof.
  apply demo_run_reachable; exact (reachable_start Demo.classes Demo.hp0).
Defined.

Lemma demo_counter_value_mode : value_mode Demo.a_counter.
Proof. split; [intros H; vm_compute in H; discriminate H|reflexivity]. Defined.

Lemma throw_leaves_world_unchanged_witness :
  ∃ w', exec Demo.classes (CopyAssign 2%nat 1%nat) Demo.fragile_world = Throw w' ∧
        w' = Demo.fragile_world.
Proof.
  exists Demo.fragile_world. split; [vm_compute; reflexivity|].
  apply (throw_leaves_world_unchanged Demo.classes (CopyAssign 2%nat 1%nat)).
  vm_compute. reflexivity.
Defined.

Lemma wrap_then_destroy_restores_witness :
  end_of_scope Demo.classes 1%nat Demo.w1 = Ret tt Demo.w0.
Proof.
  apply (wrap_then_destroy_restores Demo.classes 1%nat Demo.Shape (TClass Demo.square)
           false (OClass Demo.square [4%Z])).
  vm_compute. reflexivity.
Defined.

Lemma copy_then_destroy_restores_witness :
  ∃ w', copy_ctor Demo.classes 2%nat 1%nat Demo.w1 = Ret tt w' ∧
        end_of_scope Demo.classes 2%nat w' = Ret tt Demo.w1.
Proof.
  eexists. split; [vm_compute; reflexivity|].
  apply (copy_then_destroy_restores Demo.classes 1%nat 2%nat Demo.w1 _ demo_w1_reachable).
  vm_compute. reflexivity.
Defined.

Lemma reachable_objects_own_their_buffers_witness :
  _ptr Demo.a_square ≠ _ptr Demo.b_square.
Proof.
  apply (proj2 (reachable_objects_own_their_buffers Demo.classes Demo.w2 demo_w2_reachable)
           1%nat 2%nat Demo.a_square Demo.b_square).
  - lia.
  - reflexivity.
  - reflexivity.
  - intros H. vm_compute in H. discriminate H.
Defined.

Lemma destructor_releases_own_buffer_witness :
  ∃ w', end_of_scope Demo.classes 1%nat Demo.w1 = Ret tt w' ∧
        vars w' = delete 1%nat (vars Demo.w1) ∧
        blocks (mem w') !! _ptr Demo.a_square = None.
Proof.
  destruct (destructor_releases_own_buffer Demo.classes 1%nat Demo.a_square Demo.w1
              demo_w1_reachable eq_refl) as (w' & He & Hv & Hp & _).
  exists w'. split; [exact He|]. split; [exact Hv|].
  apply Hp. intros H. vm_compute in H. discriminate H.
Defined.

Lemma value_mode_call_touches_own_buffer_only_witness :
  ∃ w', call Demo.classes 1%nat "area"%string [] Demo.w3 = Ret 5%Z w' ∧
        vars w' = vars Demo.w3 ∧ avail (mem w') = avail (mem Demo.w3).
Proof.
  eexists. split; [vm_compute; reflexivity|].
  refine (let H := value_mode_call_touches_own_buffer_only Demo.classes 1%nat
                     Demo.a_counter "area"%string [] Demo.w3 5%Z _ demo_w3_reachable
                     eq_refl demo_counter_value_mode _ in
          conj (proj1 H) (proj1 (proj2 H))).
  vm_compute. reflexivity.
Defined.

Lemma copy_equals_source_iff_shared_witness :
  ∃ w' r, copy_ctor Demo.classes 2%nat 1%nat Demo.w1 = Ret tt w' ∧
          vars w' !! 2%nat = Some r ∧
          operator_eq Demo.a_square r (mem w') = Some false.
Proof.
  eexists. 
  assert (He : copy_ctor Demo.classes 2%nat 1%nat Demo.w1 = Ret tt _)
    by (vm_compute; reflexivity).
  destruct (copy_equals_source_iff_shared Demo.classes 1%nat 2%nat Demo.a_square Demo.w1 _
              demo_w1_reachable eq_refl He) as (r & Hy & _ & Heq & _).
  exists r. split; [exact He|]. split; [exact Hy|exact Heq].
Defined.

Lemma operator_eq_symmetric_transitive_witness :
  operator_eq Demo.a_square Demo.b_square (mem Demo.w2)
  = operator_eq Demo.b_square Demo.a_square (mem Demo.w2).
Proof.
  exact (proj1 (operator_eq_symmetric_transitive Demo.classes 1%nat 2%nat 1%nat
                  Demo.a_square Demo.b_square Demo.a_square Demo.w2
                  demo_w2_reachable eq_refl eq_refl eq_refl)).
Defined.

Lemma target_class_is_safe_witness :
  target (TClass Demo.square) Demo.a_square = _ptr Demo.a_square ∧
  ∃ s, load_class Demo.square (target (TClass Demo.square) Demo.a_square) (mem Demo.w1)
       = Some s.
Proof.
  destruct (target_class_is_safe Demo.classes 1%nat Demo.a_square Demo.square Demo.w1
              demo_w1_reachable eq_refl) as (Hp & _ & Hs & _).
  - intros H. vm_compute in H. discriminate H.
  - exact (conj Hp Hs).
Defined.

Lemma call_on_empty_is_undefined_witness :
  call Demo.classes 2%nat "area"%string [] Demo.fragile_world = Undefined.
Proof.
  apply (call_on_empty_is_undefined Demo.classes 2%nat (default_interface Demo.Shape)).
  - exact demo_fragile_world_reachable.
  - vm_compute. reflexivity.
  - reflexivity.
Defined.

Lemma converting_move_keeps_source_non_empty_witness :
  ∃ w', converting_ctor Demo.classes 2%nat Demo.Shape false 1%nat Demo.w3 = Ret tt w' ∧
        vars w' !! 1%nat = Some Demo.a_counter ∧
        operator_bool Demo.a_counter = true.
Proof.
  eexists. split; [vm_compute; reflexivity|].
  refine (let H := converting_move_keeps_source_non_empty Demo.classes 1%nat 2%nat
                     Demo.a_counter Demo.Shape Demo.counter Demo.w3 _
                     demo_w3_reachable eq_refl eq_refl _ in
          conj (proj1 H) (proj1 (proj2 H))).
  vm_compute. reflexivity.
Defined.

Lemma widening_conversion_is_rejected_witness :
  converting_ctor Demo.classes 2%nat Demo.Shape2 true 1%nat Demo.w1 = Undefined.
Proof.
  apply (widening_conversion_is_rejected Demo.classes 1%nat 2%nat Demo.a_square
           Demo.Shape2 true "twice"%string Demo.w1).
  - reflexivity.
  - apply list_elem_of_further, list_elem_of_here.
  - intros H. apply list_elem_of_singleton in H. discriminate H.
Defined.

Lemma swap_twice_restores_witness :
  ∃ w1, swap 1%nat 2%nat Demo.w2 = Ret tt w1 ∧
        swap 1%nat 2%nat w1 = Ret tt Demo.w2 ∧ swap 2%nat 1%nat Demo.w2 = Ret tt w1.
Proof.
  eexists. split; [vm_compute; reflexivity|].
  apply (swap_twice_restores 1%nat 2%nat Demo.w2). vm_compute. reflexivity.
Defined.

Lemma self_move_assign_is_identity_witness :
  move_assign Demo.classes 1%nat 1%nat Demo.w1 = Ret tt Demo.w1.
Proof.
  exact (self_move_assign_is_identity Demo.classes 1%nat Demo.a_square Demo.w1
           demo_w1_reachable eq_refl).
Defined.

Lemma assignment_frees_old_buffer_witness :
  ∃ w', move_assign Demo.classes 1%nat 2%nat Demo.w2 = Ret tt w' ∧
        blocks (mem w') !! _ptr Demo.a_square = None.
Proof.
  eexists. split; [vm_compute; reflexivity|].
  refine (proj2 (assignment_frees_old_buffer Demo.classes 1%nat 2%nat
                   Demo.a_square Demo.b_square Demo.w2
                   demo_w2_reachable eq_refl eq_refl eq_refl _) _ _ _).
  - intros H. vm_compute in H. discriminate H.
  - lia.
  - vm_compute. reflexivity.
Defined.

Lemma reference_call_writes_pointee_only_witness :
  ∃ w', call Demo.classes 1%nat "area"%string [] Demo.three_refs = Ret 7%Z w' ∧
        vars w' = vars Demo.three_refs ∧ avail (mem w') = avail (mem Demo.three_refs).
Proof.
  eexists. split; [vm_compute; reflexivity|].
  refine (let H := reference_call_writes_pointee_only Demo.classes 1%nat
                     Demo.a_ref "area"%string [] Demo.three_refs 7%Z _ demo_three_refs_reachable
                     _ eq_refl _ in
          conj (proj1 H) (proj1 (proj2 H))).
  - vm_compute. reflexivity.
  - vm_compute. reflexivity.
Defined.
